(** * uml-mail-fastapi: the process-manager configuration and the supervisor it drives

    The repository holds one file, [ecosystem.config.js]: an object literal
    assigned to [module.exports].  The first half of this development embeds
    that file (its text, and the JavaScript value it evaluates to) and reads
    the facts the specification states about it.  The second half models the
    supervisor the specification describes around the file (restart
    controller, log multiplexer, lifecycle signal handler); that program is
    not part of the repository, so those definitions follow the
    specification and say so. *)

From Stdlib Require Import ZArith NArith Ascii String List Bool Lia.
From stdpp Require Import gmap strings list fin_maps.
Import ListNotations.

Set Warnings "-register-all".

Local Open Scope string_scope.
Local Open Scope list_scope.

(* ===================================================================== *)
(** ** The source file as text *)
(* ===================================================================== *)

Module Source.

Definition LF : ascii := ascii_of_nat 10.

(** [ecosystem.config.js], line by line; the last line carries no
    terminating line feed. *)
Definition ecosystem_config_js : string :=
  String.concat (String LF EmptyString)
    [ "module.exports = {"
    ; "  apps: ["
    ; "    {"
    ; "      name: 'uml-mail-fastapi',"
    ; "      script: 'main.py',"
    ; "      interpreter: 'python',"
    ; "      instances: 1,"
    ; "      exec_mode: 'fork',"
    ; "      env: {"
    ; "        NODE_ENV: 'production',"
    ; "        PORT: 3001"
    ; "      },"
    ; "      error_file: './logs/error.log',"
    ; "      out_file: './logs/out.log',"
    ; "      log_file: './logs/combined.log',"
    ; "      time_format: 'YYYY-MM-DD HH:mm:ss Z',"
    ; "      merge_logs: true,"
    ; "      autorestart: true,"
    ; "      max_memory_restart: '500M',"
    ; "      max_restarts: 10,"
    ; "      min_uptime: '10s',"
    ; "      listen_timeout: 10000,"
    ; "      kill_timeout: 5000"
    ; "    }"
    ; "  ]"
    ; "};" ].

(** Number of line-feed characters of a text. *)
Fixpoint line_feeds (s : string) : nat :=
  match s with
  | EmptyString => 0
  | String c rest => (if Ascii.eqb c LF then 1 else 0) + line_feeds rest
  end.

(** The lines of a text: the segments between line feeds.  A text that
    ends in a line feed has no further (empty) line after it. *)
Fixpoint lines_from (cur : string) (s : string) : list string :=
  match s with
  | EmptyString => if String.eqb cur "" then [] else [cur]
  | String c rest =>
      if Ascii.eqb c LF then cur :: lines_from "" rest
      else lines_from (cur ++ String c EmptyString) rest
  end.

Definition lines (s : string) : list string := lines_from "" s.

End Source.

(* ===================================================================== *)
(** ** JavaScript values of the literal *)
(* ===================================================================== *)

Module Js.

(** The values an object literal of this file is built from.  Every
    number of the file is an integer literal, so numbers are [Z]. *)
Inductive value : Type :=
| Str (s : string)
| Num (n : Z)
| Boolean (b : bool)
| Arr (items : list value)
| Obj (props : list (string * value)).

(** Lookup among the properties the literal writes (the object's own
    properties); were a key written twice, the later binding would be the
    object's.  What an object inherits from its prototype is not modelled:
    the lookups of this development are of keys the file writes. *)
Fixpoint assoc_last (k : string) (ps : list (string * value)) : option value :=
  match ps with
  | [] => None
  | (k', v) :: rest =>
      match assoc_last k rest with
      | Some w => Some w
      | None => if String.eqb k k' then Some v else None
      end
  end.

Definition prop (k : string) (v : value) : option value :=
  match v with
  | Obj ps => assoc_last k ps
  | _ => None
  end.

Definition keys (v : value) : list string :=
  match v with
  | Obj ps => map fst ps
  | _ => []
  end.

Definition is_string (v : value) : bool :=
  match v with Str _ => true | _ => false end.
Definition is_number (v : value) : bool :=
  match v with Num _ => true | _ => false end.
Definition is_boolean (v : value) : bool :=
  match v with Boolean _ => true | _ => false end.
Definition is_object (v : value) : bool :=
  match v with Obj _ => true | _ => false end.

(** Every number that occurs in a value, with the key it is bound to
    (array items keep the key of the array). *)
Fixpoint numbers (key : string) (v : value) : list (string * Z) :=
  match v with
  | Num n => [(key, n)]
  | Str _ | Boolean _ => []
  | Arr vs => flat_map (numbers key) vs
  | Obj ps => flat_map (fun kv => numbers (fst kv) (snd kv)) ps
  end.

End Js.

(* ===================================================================== *)
(** ** [module.exports] of ecosystem.config.js *)
(* ===================================================================== *)

Module Ecosystem.
Import Js.

Definition module_exports : value :=
  Obj
    [ ("apps",
       Arr
         [ Obj
             [ ("name", Str "uml-mail-fastapi")
             ; ("script", Str "main.py")
             ; ("interpreter", Str "python")
             ; ("instances", Num 1)
             ; ("exec_mode", Str "fork")
             ; ("env",
                Obj [ ("NODE_ENV", Str "production"); ("PORT", Num 3001) ])
             ; ("error_file", Str "./logs/error.log")
             ; ("out_file", Str "./logs/out.log")
             ; ("log_file", Str "./logs/combined.log")
             ; ("time_format", Str "YYYY-MM-DD HH:mm:ss Z")
             ; ("merge_logs", Boolean true)
             ; ("autorestart", Boolean true)
             ; ("max_memory_restart", Str "500M")
             ; ("max_restarts", Num 10)
             ; ("min_uptime", Str "10s")
             ; ("listen_timeout", Num 10000)
             ; ("kill_timeout", Num 5000) ] ]) ].

(** [module.exports.apps] *)
Definition apps : list value :=
  match prop "apps" module_exports with
  | Some (Arr vs) => vs
  | _ => []
  end.

(** [module.exports.apps[0]]; an empty object stands for [undefined]. *)
Definition app0 : value :=
  match nth_error apps 0 with
  | Some v => v
  | None => Obj []
  end.

End Ecosystem.

(* ===================================================================== *)
(** ** Reading the strings of the document *)
(* ===================================================================== *)

Module Text.

Definition digit (c : ascii) : option N :=
  let n := N_of_ascii c in
  if (48 <=? n)%N && (n <=? 57)%N then Some (n - 48)%N else None.

(** The decimal number a string starts with, and what follows it. *)
Fixpoint leading_number (acc : option N) (s : string) : option N * string :=
  match s with
  | EmptyString => (acc, EmptyString)
  | String c rest =>
      match digit c with
      | Some k => leading_number (Some (10 * default 0%N acc + k)%N) rest
      | None => (acc, s)
      end
  end.

(** Modelled from the spec: the Config Loader's reading of
    [max_memory_restart], a "size string, e.g. 500M".  The document gives
    the form by one example; the model reads a decimal count followed by
    one binary unit letter. *)
Definition size_unit (suffix : string) : option N :=
  if String.eqb suffix "K" then Some 1024%N
  else if String.eqb suffix "M" then Some (1024 * 1024)%N
  else if String.eqb suffix "G" then Some (1024 * 1024 * 1024)%N
  else None.

Definition parse_size (s : string) : option N :=
  match leading_number None s with
  | (Some n, suffix) => option_map (N.mul n) (size_unit suffix)
  | (None, _) => None
  end.

(** Modelled from the spec: the Config Loader's reading of [min_uptime],
    a "duration string, e.g. 10s": a decimal count followed by a unit of
    time, in milliseconds. *)
Definition duration_unit (suffix : string) : option N :=
  if String.eqb suffix "ms" then Some 1%N
  else if String.eqb suffix "s" then Some 1000%N
  else if String.eqb suffix "m" then Some 60000%N
  else if String.eqb suffix "h" then Some 3600000%N
  else None.

Definition parse_duration (s : string) : option N :=
  match leading_number None s with
  | (Some n, suffix) => option_map (N.mul n) (duration_unit suffix)
  | (None, _) => None
  end.

(** A count followed by a non-empty suffix: the common shape of both. *)
Definition has_unit_suffix (s : string) : bool :=
  match leading_number None s with
  | (Some _, String _ _) => true
  | _ => false
  end.

(** *** Paths *)

Fixpoint split_from (sep : ascii) (cur : string) (s : string) : list string :=
  match s with
  | EmptyString => [cur]
  | String c rest =>
      if Ascii.eqb c sep then cur :: split_from sep "" rest
      else split_from sep (cur ++ String c EmptyString) rest
  end.

Definition segments (p : string) : list string := split_from "/" "" p.

Definition is_absolute (p : string) : bool := String.prefix "/" p.

(** The directory entries a relative path walks through, from the working
    directory: empty and [.] segments stay in place, [..] steps back; [None]
    once the path leaves the working directory. *)
Fixpoint walk (stack : list string) (segs : list string) : option (list string) :=
  match segs with
  | [] => Some (rev stack)
  | seg :: rest =>
      if String.eqb seg "" || String.eqb seg "." then walk stack rest
      else if String.eqb seg ".." then
        match stack with
        | [] => None
        | _ :: up => walk up rest
        end
      else walk (seg :: stack) rest
  end.

Definition resolve (p : string) : option (list string) :=
  if is_absolute p then None else walk [] (segments p).

(** [p] names a file directly inside directory [dir]. *)
Definition inside (dir p : string) : bool :=
  match resolve dir, resolve p with
  | Some d, Some f =>
      match rev f with
      | _ :: parent => bool_decide (rev parent = d)
      | [] => false
      end
  | _, _ => false
  end.

End Text.

(* ===================================================================== *)
(** ** The descriptor and the Config Loader *)
(* ===================================================================== *)

Module Config.

Inductive exec_mode : Type := Fork | Cluster.

(** Modelled from the spec: the AppDescriptor of the data model, the
    validated in-memory form of one entry of [apps].  The supervisor's
    loader is not in the repository; the fields are those the document
    lists.  Times are milliseconds, the memory ceiling is bytes. *)
Record AppDescriptor : Type := mkApp
  { name : string
  ; script : string
  ; interpreter : string
  ; instances : nat
  ; mode : exec_mode
  ; env : list (string * Js.value)
  ; error_file : string
  ; out_file : string
  ; log_file : string
  ; time_format : string
  ; merge_logs : bool
  ; autorestart : bool
  ; max_memory_restart : N
  ; max_restarts : nat
  ; min_uptime : N
  ; listen_timeout : N
  ; kill_timeout : N }.

Inductive config_error : Type :=
| Missing (field : string)
| Malformed (field : string).

(** The loader's result: a value, or a configuration error. *)
Inductive loaded (A : Type) : Type :=
| Ok (a : A)
| ConfigError (e : config_error).
Arguments Ok {A} a.
Arguments ConfigError {A} e.

Definition bind {A B : Type} (m : loaded A) (k : A -> loaded B) : loaded B :=
  match m with
  | Ok a => k a
  | ConfigError e => ConfigError e
  end.

Notation "'let*' x ':=' m 'in' k" := (bind m (fun x => k))
  (at level 10, x name, m at level 100, k at level 200).

Definition field (k : string) (v : Js.value) : loaded Js.value :=
  match Js.prop k v with
  | Some w => Ok w
  | None => ConfigError (Missing k)
  end.

Definition field_string (k : string) (v : Js.value) : loaded string :=
  let* w := field k v in
  match w with
  | Js.Str s => Ok s
  | _ => ConfigError (Malformed k)
  end.

Definition field_bool (k : string) (v : Js.value) : loaded bool :=
  let* w := field k v in
  match w with
  | Js.Boolean b => Ok b
  | _ => ConfigError (Malformed k)
  end.

(** A count or a number of milliseconds: a number that is not negative. *)
Definition field_count (k : string) (v : Js.value) : loaded N :=
  let* w := field k v in
  match w with
  | Js.Num n => if (0 <=? n)%Z then Ok (Z.to_N n) else ConfigError (Malformed k)
  | _ => ConfigError (Malformed k)
  end.

Definition field_parsed (parse : string -> option N) (k : string) (v : Js.value)
  : loaded N :=
  let* s := field_string k v in
  match parse s with
  | Some n => Ok n
  | None => ConfigError (Malformed k)
  end.

Definition field_mode (k : string) (v : Js.value) : loaded exec_mode :=
  let* s := field_string k v in
  if String.eqb s "fork" then Ok Fork
  else if String.eqb s "cluster" then Ok Cluster
  else ConfigError (Malformed k).

Definition field_env (k : string) (v : Js.value) : loaded (list (string * Js.value)) :=
  let* w := field k v in
  match w with
  | Js.Obj ps => Ok ps
  | _ => ConfigError (Malformed k)
  end.

(** Modelled from the spec: the Config Loader, a pure parse of one entry
    into a descriptor; a missing or malformed field is a configuration
    error.  The document names [name] and [script] as required and gives
    no defaults for the others, so the model knows none: it loads entries
    that state every field. *)
Definition load_app (v : Js.value) : loaded AppDescriptor :=
  let* name := field_string "name" v in
  let* script := field_string "script" v in
  let* interpreter := field_string "interpreter" v in
  let* instances := field_count "instances" v in
  let* mode := field_mode "exec_mode" v in
  let* env := field_env "env" v in
  let* error_file := field_string "error_file" v in
  let* out_file := field_string "out_file" v in
  let* log_file := field_string "log_file" v in
  let* time_format := field_string "time_format" v in
  let* merge_logs := field_bool "merge_logs" v in
  let* autorestart := field_bool "autorestart" v in
  let* max_memory_restart := field_parsed Text.parse_size "max_memory_restart" v in
  let* max_restarts := field_count "max_restarts" v in
  let* min_uptime := field_parsed Text.parse_duration "min_uptime" v in
  let* listen_timeout := field_count "listen_timeout" v in
  let* kill_timeout := field_count "kill_timeout" v in
  Ok (mkApp name script interpreter (N.to_nat instances) mode env
        error_file out_file log_file time_format merge_logs autorestart
        max_memory_restart (N.to_nat max_restarts) min_uptime
        listen_timeout kill_timeout).

Fixpoint load_all (vs : list Js.value) : loaded (list AppDescriptor) :=
  match vs with
  | [] => Ok []
  | v :: rest =>
      let* d := load_app v in
      let* ds := load_all rest in
      Ok (d :: ds)
  end.

Definition load (doc : Js.value) : loaded (list AppDescriptor) :=
  match Js.prop "apps" doc with
  | Some (Js.Arr vs) => load_all vs
  | Some _ => ConfigError (Malformed "apps")
  | None => ConfigError (Missing "apps")
  end.

(** The descriptor this repository's document loads to. *)
Definition uml_mail_fastapi : AppDescriptor :=
  mkApp "uml-mail-fastapi" "main.py" "python" 1 Fork
    [ ("NODE_ENV", Js.Str "production"); ("PORT", Js.Num 3001) ]
    "./logs/error.log" "./logs/out.log" "./logs/combined.log"
    "YYYY-MM-DD HH:mm:ss Z" true true
    (500 * 1024 * 1024)%N 10 10000%N 10000%N 5000%N.

End Config.

(* ===================================================================== *)
(** ** Health & Restart Controller and Lifecycle Signal Handler *)
(* ===================================================================== *)

Module Controller.
Import Config.

Inductive intent : Type :=
| ByRequest       (* an explicit stop request *)
| ByMemoryLimit.  (* the memory ceiling was exceeded: a deliberate restart *)

Inductive verdict : Type := Normal | Failure.

(** Modelled from the spec: the states of the controller's state machine,
    [Starting -> Listening -> Running -> Stopping -> Stopped/Crashed]. *)
Inductive state : Type :=
| Starting
| Listening
| Running
| Stopping (why : intent)
| Crashed
| Stopped (how : verdict).

(** Modelled from the spec: the error taxonomy of the supervisor, without
    [ConfigError], which the loader raises before any process exists. *)
Inductive error : Type :=
| LaunchError
| RuntimeCrash
| ResourceLimitExceeded
| ShutdownTimeout
| RestartQuotaExhausted.

Inductive cause : Type := Initial | AfterCrash | AfterMemoryLimit.

(** What the controller does while it handles an event, in order: the
    observable trace the properties are stated on. *)
Inductive action : Type :=
| Enter (s : state)            (* a transition into [s] *)
| Spawn (c : cause) (now : N)  (* the Process Launcher starts a child *)
| SendTerm (now : N)           (* graceful-termination signal *)
| SendKill (now : N)           (* forced termination *)
| Handled (e : error)          (* dealt with inside the controller *)
| Surfaced (e : error).        (* reported to the operator *)

(** Modelled from the spec: the ProcessInstance of the data model (start
    timestamp, restart count, current state), with the two one-shot
    deadlines of the Lifecycle Signal Handler.  The OS process id plays no
    part in the transitions and is left out. *)
Record ProcessInstance : Type := mkProc
  { started_at : N
  ; restart_count : nat
  ; current : state
  ; listen_deadline : option N
  ; kill_deadline : option N }.

(** Modelled from the spec: what the event loop dispatches to the
    controller (process-exit, timer and sampling events, stop requests). *)
Inductive event : Type :=
| Ready            (* the child signals readiness *)
| Alive            (* liveness confirmed *)
| Exited           (* process-exit event *)
| Memory (rss : N) (* a sample of the child's resident memory, in bytes *)
| StopRequest
| ListenDeadline   (* timer armed at launch *)
| KillDeadline.    (* timer armed with the graceful signal *)

Definition terminal (s : state) : bool :=
  match s with Stopped _ => true | _ => false end.

(** A child is up: the states a process-exit event is unexpected in. *)
Definition up (s : state) : bool :=
  match s with Starting | Listening | Running => true | _ => false end.

Definition due (deadline : option N) (now : N) : bool :=
  match deadline with
  | Some t => (t <=? now)%N
  | None => false
  end.

Definition uptime (now : N) (p : ProcessInstance) : N := (now - started_at p)%N.

(** The prior run was a rapid crash: it lasted less than [min_uptime]. *)
Definition rapid (d : AppDescriptor) (now : N) (p : ProcessInstance) : bool :=
  (uptime now p <? min_uptime d)%N.

Definition move (s : state) (p : ProcessInstance) : ProcessInstance :=
  mkProc (started_at p) (restart_count p) s None None.

(** Modelled from the spec: [launch] of the Process Launcher, as far as
    the controller sees it: the child is spawned, the start timestamp
    recorded and the listen deadline armed, once. *)
Definition launch (d : AppDescriptor) (c : cause) (now : N) (count : nat)
  : ProcessInstance * list action :=
  (mkProc now count Starting (Some (now + listen_timeout d)%N) None,
   [Spawn c now; Enter Starting]).

(** Modelled from the spec: graceful termination by the Lifecycle Signal
    Handler: the signal is sent and the kill deadline armed, once. *)
Definition begin_stop (d : AppDescriptor) (why : intent) (now : N)
  (p : ProcessInstance) : ProcessInstance * list action :=
  (mkProc (started_at p) (restart_count p) (Stopping why) None
     (Some (now + kill_timeout d)%N),
   [Enter (Stopping why); SendTerm now]).

(** Modelled from the spec: [Running -> Crashed]; a run of at least
    [min_uptime] puts the counter back to zero before the restart policy
    is evaluated. *)
Definition crash (d : AppDescriptor) (now : N) (p : ProcessInstance)
  : ProcessInstance * list action :=
  (mkProc (started_at p)
     (if rapid d now p then restart_count p else 0%nat)
     Crashed None None,
   [Enter Crashed; Handled RuntimeCrash]).

(** Modelled from the spec: [Crashed -> Starting] if [autorestart] and
    the counter is below [max_restarts], counting the restart only after a
    rapid crash; [Crashed -> Stopped] (failure) otherwise, surfaced to the
    operator. *)
Definition evaluate (d : AppDescriptor) (now : N) (was_rapid : bool)
  (p : ProcessInstance) : ProcessInstance * list action :=
  if autorestart d && (restart_count p <? max_restarts d)%nat then
    launch d AfterCrash now
      (if was_rapid then S (restart_count p) else restart_count p)
  else
    (move (Stopped Failure) p,
     [Enter (Stopped Failure); Surfaced RestartQuotaExhausted]).

Definition on_exit (d : AppDescriptor) (now : N) (p : ProcessInstance)
  : ProcessInstance * list action :=
  let '(q, a1) := crash d now p in
  let '(r, a2) := evaluate d now (rapid d now p) q in
  (r, a1 ++ a2).

(** Modelled from the spec: one dispatch of the control-plane event loop,
    the transitions of sections 4.3 and 4.5.  A process exit while the
    child is up is unexpected, also before [Running]; [listen_timeout]
    elapsing without a readiness signal counts as startup success (the
    choice the document leaves to the implementer); a stop request that
    finds the child already being stopped sends the graceful signal again
    and neither cancels nor re-arms the kill deadline in flight; any other
    pair of state and event changes nothing. *)
Definition step (d : AppDescriptor) (p : ProcessInstance) (now : N) (e : event)
  : ProcessInstance * list action :=
  match current p, e with
  | Starting, Ready => (move Listening p, [Enter Listening])
  | Starting, ListenDeadline =>
      if due (listen_deadline p) now
      then (move Listening p, [Enter Listening])
      else (p, [])
  | Listening, Alive => (move Running p, [Enter Running])
  | (Starting | Listening | Running), Exited => on_exit d now p
  | (Starting | Listening | Running), StopRequest => begin_stop d ByRequest now p
  | Running, Memory rss =>
      if (max_memory_restart d <? rss)%N then
        let '(q, a) := begin_stop d ByMemoryLimit now p in
        (q, Handled ResourceLimitExceeded :: a)
      else (p, [])
  | Stopping why, KillDeadline =>
      if due (kill_deadline p) now
      then (mkProc (started_at p) (restart_count p) (Stopping why) None None,
            [Handled ShutdownTimeout; SendKill now])
      else (p, [])
  | Stopping ByRequest, Exited => (move (Stopped Normal) p, [Enter (Stopped Normal)])
  | Stopping ByMemoryLimit, Exited =>
      launch d AfterMemoryLimit now (restart_count p)
  | Stopping ByMemoryLimit, StopRequest =>
      (mkProc (started_at p) (restart_count p) (Stopping ByRequest)
         None (kill_deadline p),
       [Enter (Stopping ByRequest); SendTerm now])
  | Stopping ByRequest, StopRequest => (p, [SendTerm now])
  | _, _ => (p, [])
  end.

(** The event loop over a schedule of timestamped events. *)
Fixpoint run (d : AppDescriptor) (p : ProcessInstance) (evs : list (N * event))
  : ProcessInstance * list action :=
  match evs with
  | [] => (p, [])
  | (now, e) :: rest =>
      let '(q, a) := step d p now e in
      let '(r, b) := run d q rest in
      (r, a ++ b)
  end.

(** *** Measures of a trace *)

Definition is_spawn (a : action) : bool :=
  match a with Spawn _ _ => true | _ => false end.
Definition is_restart (a : action) : bool :=
  match a with Spawn AfterCrash _ => true | _ => false end.
Definition is_term (a : action) : bool :=
  match a with SendTerm _ => true | _ => false end.
Definition is_kill (a : action) : bool :=
  match a with SendKill _ => true | _ => false end.
Definition is_surfaced (a : action) : bool :=
  match a with Surfaced _ => true | _ => false end.

Definition count (f : action -> bool) (tr : list action) : nat :=
  List.length (List.filter f tr).

Definition launches (tr : list action) : nat := count is_spawn tr.
Definition restarts (tr : list action) : nat := count is_restart tr.

(** The states entered, in order. *)
Fixpoint visited (tr : list action) : list state :=
  match tr with
  | [] => []
  | Enter s :: rest => s :: visited rest
  | _ :: rest => visited rest
  end.

(** *** A child that crashes on every launch *)

(** Modelled from the spec: the scenario of a crash-looping child.  The
    supervisor in closed loop with a child whose [k]-th launch lasts
    [life k] milliseconds and then exits: the first launch at [t0], then
    one process-exit event per launch until the controller is terminal.
    [fuel] bounds the number of exits handled. *)
Fixpoint crash_loop (fuel : nat) (d : AppDescriptor) (life : nat -> N)
  (k : nat) (p : ProcessInstance) : ProcessInstance * list action :=
  match fuel with
  | O => (p, [])
  | S fuel' =>
      if terminal (current p) then (p, [])
      else
        let '(q, a) := step d p (started_at p + life k)%N Exited in
        let '(r, b) := crash_loop fuel' d life (S k) q in
        (r, a ++ b)
  end.

Definition supervise_crashing (fuel : nat) (d : AppDescriptor) (life : nat -> N)
  (t0 : N) : ProcessInstance * list action :=
  let '(p, a) := launch d Initial t0 0 in
  let '(r, b) := crash_loop fuel d life 0 p in
  (r, a ++ b).

(** *** Schedules of the other scenarios *)

(** Modelled from the spec: a memory-triggered restart seen from the
    event loop: the sample at [t1]; the child exits on the graceful signal
    at [t2], or, if [forced], the kill deadline fires first. *)
Definition memory_restart_schedule (d : AppDescriptor) (rss t1 t2 : N)
  (forced : bool) : list (N * event) :=
  (t1, Memory rss) ::
  (if forced then [((t1 + kill_timeout d)%N, KillDeadline)] else []) ++
  [(t2, Exited)].

(** *** Shutdown in closed loop *)

(** The child's exit, if it has exited by [t]. *)
Definition first_exit (exit_at : option N) (t : N) : option N :=
  match exit_at with
  | Some e => if (e <=? t)%N then Some e else None
  | None => None
  end.

(** The process-exit event at [e], and the time it is recorded at. *)
Definition child_exit (d : AppDescriptor) (q : ProcessInstance) (e : N)
  : ProcessInstance * list action * option N :=
  let '(s, b) := step d q e Exited in
  (s, b, Some e).

(** Modelled from the spec: what follows a graceful signal, seen from the
    event loop.  The child exits of itself at [exit_at], or never; until
    then the loop is woken at the times [wakeups], in that order, and
    hands each wakeup to the controller as a kill-deadline tick.  Whether
    a tick fires is the controller's decision; when it answers with a
    forced termination the child, which cannot ignore it, exits at once.
    The result is the last state, the actions taken and the time of the
    child's exit, if it exits. *)
Fixpoint await (d : AppDescriptor) (exit_at : option N) (wakeups : list N)
  (q : ProcessInstance) : ProcessInstance * list action * option N :=
  match wakeups with
  | [] =>
      match exit_at with
      | Some e => child_exit d q e
      | None => (q, [], None)
      end
  | t :: rest =>
      match first_exit exit_at t with
      | Some e => child_exit d q e
      | None =>
          let '(r, a) := step d q t KillDeadline in
          if existsb is_kill a then
            let '(s, b) := step d r t Exited in
            (s, a ++ b, Some t)
          else
            let '(s, b, fin) := await d exit_at rest r in
            (s, a ++ b, fin)
      end
  end.

(** The wakeups of the event loop while a stop is pending: any number of
    [early] ones, then the timer's own, at the deadline the controller has
    armed, whatever that is. *)
Definition wakeups (early : list N) (q : ProcessInstance) : list N :=
  early ++ match kill_deadline q with
           | Some deadline => [deadline]
           | None => []
           end.

(** Modelled from the spec: a stop request at [now] and what follows.
    [grace] is the child's answer to the graceful signal: [Some g], it
    exits [g] milliseconds after it; [None], it ignores it. *)
Definition shutdown (d : AppDescriptor) (p : ProcessInstance) (now : N)
  (grace : option N) (early : list N)
  : ProcessInstance * list action * option N :=
  let '(q, a) := step d p now StopRequest in
  let '(s, b, fin) := await d (option_map (N.add now) grace) (wakeups early q) q in
  (s, a ++ b, fin).

Definition final_of (out : ProcessInstance * list action * option N)
  : ProcessInstance := fst (fst out).
Definition trace_of (out : ProcessInstance * list action * option N)
  : list action := snd (fst out).
Definition exit_of (out : ProcessInstance * list action * option N)
  : option N := snd out.

(** The child answers the graceful signal within [kill_timeout]. *)
Definition exited_in_time (d : AppDescriptor) (grace : option N) : bool :=
  match grace with
  | Some g => (g <=? kill_timeout d)%N
  | None => false
  end.

(** A stop request at [now] finds a child to stop: one that is up, or one
    that is being stopped with its kill deadline still ahead, armed no
    later than [now]. *)
Definition stoppable (d : AppDescriptor) (now : N) (p : ProcessInstance) : bool :=
  match current p with
  | Starting | Listening | Running => true
  | Stopping _ =>
      match kill_deadline p with
      | Some deadline =>
          (now <=? deadline)%N && (deadline <=? now + kill_timeout d)%N
      | None => false
      end
  | _ => false
  end.

Definition is_signal (a : action) : bool := is_term a || is_kill a.

Definition with_listen_timeout (x : N) (d : AppDescriptor) : AppDescriptor :=
  mkApp (name d) (script d) (interpreter d) (instances d) (mode d) (env d)
    (error_file d) (out_file d) (log_file d) (time_format d) (merge_logs d)
    (autorestart d) (max_memory_restart d) (max_restarts d) (min_uptime d)
    x (kill_timeout d).

Definition with_kill_timeout (x : N) (d : AppDescriptor) : AppDescriptor :=
  mkApp (name d) (script d) (interpreter d) (instances d) (mode d) (env d)
    (error_file d) (out_file d) (log_file d) (time_format d) (merge_logs d)
    (autorestart d) (max_memory_restart d) (max_restarts d) (min_uptime d)
    (listen_timeout d) x.

End Controller.

(* ===================================================================== *)
(** ** Log Multiplexer *)
(* ===================================================================== *)

Module LogMux.
Import Config.

Inductive stream : Type := Stdout | Stderr.

#[global] Instance stream_eq_dec : EqDecision stream.
Proof. solve_decision. Defined.

(** One line read from a pipe of the child, with its arrival time. *)
Record line : Type := mkLine
  { source : stream
  ; arrived : N
  ; text : string }.

(** [merged l r m]: [m] interleaves [l] and [r]; both keep their order and
    every element of [m] comes from exactly one of them. *)
Inductive merged {A : Type} : list A -> list A -> list A -> Prop :=
| merged_nil : merged [] [] []
| merged_left x l r m : merged l r m -> merged (x :: l) r (x :: m)
| merged_right x l r m : merged l r m -> merged l (x :: r) (x :: m).

(** The lines one stream delivered, in the order it delivered them. *)
Definition from (s : stream) (ls : list line) : list line :=
  List.filter (fun l => bool_decide (source l = s)) ls.

(** The log files: path to lines; a path never written has no lines. *)
Definition content (fs : gmap string (list string)) (path : string) : list string :=
  default [] (fs !! path).

(** Append-only write of one line. *)
Definition append (fs : gmap string (list string)) (path : string) (ln : string)
  : gmap string (list string) :=
  <[path := content fs path ++ [ln]]> fs.

Section Multiplexer.

(** The rendering of an arrival time in a time format, with whatever
    separates it from the line: the prefix of a log entry. *)
Variable stamp : string -> N -> string.

Definition entry (d : AppDescriptor) (l : line) : string :=
  stamp (time_format d) (arrived l) ++ text l.

Definition own_file (d : AppDescriptor) (s : stream) : string :=
  match s with
  | Stdout => out_file d
  | Stderr => error_file d
  end.

(** Modelled from the spec: where a line of a stream is written.  With
    [merge_logs] both streams go to the single combined file; otherwise
    each stream writes to its own file plus the combined file. *)
Definition sinks (d : AppDescriptor) (s : stream) : list string :=
  if merge_logs d then [log_file d] else [own_file d s; log_file d].

Definition write (d : AppDescriptor) (fs : gmap string (list string)) (l : line)
  : gmap string (list string) :=
  fold_left (fun fs' path => append fs' path (entry d l)) (sinks d (source l)) fs.

(** Modelled from the spec: the multiplexer over the lines of both pipes
    in their order of arrival. *)
Definition multiplex (d : AppDescriptor) (fs : gmap string (list string))
  (ls : list line) : gmap string (list string) :=
  fold_left (write d) ls fs.

End Multiplexer.

End LogMux.

(* ===================================================================== *)
(** ** The fields the supervisor consumes *)
(* ===================================================================== *)

Module Schema.
Import Js.

Definition string_shape (v : value) : bool := is_string v.
Definition bool_shape (v : value) : bool := is_boolean v.
Definition integer_shape (v : value) : bool := is_number v.
Definition mapping_shape (v : value) : bool := is_object v.

Definition mode_shape (v : value) : bool :=
  match v with
  | Str s => String.eqb s "fork" || String.eqb s "cluster"
  | _ => false
  end.

Definition size_shape (v : value) : bool :=
  match v with
  | Str s => bool_decide (is_Some (Text.parse_size s))
  | _ => false
  end.

Definition duration_shape (v : value) : bool :=
  match v with
  | Str s => bool_decide (is_Some (Text.parse_duration s))
  | _ => false
  end.

Definition millis_shape (v : value) : bool :=
  match v with
  | Num n => (0 <=? n)%Z
  | _ => false
  end.

(** Modelled from the spec: the configuration document fields of section
    6, all consumed at load time, each with the shape stated there. *)
Definition consumed_fields : list (string * (value -> bool)) :=
  [ ("name", string_shape)
  ; ("script", string_shape)
  ; ("interpreter", string_shape)
  ; ("instances", integer_shape)
  ; ("exec_mode", mode_shape)
  ; ("env", mapping_shape)
  ; ("error_file", string_shape)
  ; ("out_file", string_shape)
  ; ("log_file", string_shape)
  ; ("time_format", string_shape)
  ; ("merge_logs", bool_shape)
  ; ("autorestart", bool_shape)
  ; ("max_memory_restart", size_shape)
  ; ("max_restarts", integer_shape)
  ; ("min_uptime", duration_shape)
  ; ("listen_timeout", millis_shape)
  ; ("kill_timeout", millis_shape) ].

(** The object [v] provides the field: the key is bound, to a value of the
    stated shape. *)
Definition provides (v : value) (f : string * (value -> bool)) : Prop :=
  match prop (fst f) v with
  | Some w => snd f w = true
  | None => False
  end.

(** The key a line of the source text binds, if it binds one: what stands
    before the first colon, without the indentation. *)
Fixpoint key_from (cur : string) (s : string) : option string :=
  match s with
  | EmptyString => None
  | String c rest =>
      if Ascii.eqb c ":" then Some cur
      else if Ascii.eqb c " " then key_from cur rest
      else key_from (cur ++ String c EmptyString) rest
  end.

Definition key_of_line (s : string) : option string := key_from "" s.

(** The keys of a value, outermost first, in the order of the literal. *)
Fixpoint all_keys (v : value) : list string :=
  match v with
  | Obj ps => flat_map (fun kv => fst kv :: all_keys (snd kv)) ps
  | Arr vs => flat_map all_keys vs
  | _ => []
  end.

End Schema.

(* ===================================================================== *)
(** ** Reading the literal: lookups and the text as JavaScript *)
(* ===================================================================== *)

Module Literal.
Import Js.

(** The properties of an object, in the order of the literal. *)
Definition props (v : value) : list (string * value) :=
  match v with
  | Obj ps => ps
  | _ => []
  end.

(** Lookup that would keep the first binding of a key written twice: the
    opposite of what JavaScript does. *)
Fixpoint assoc_first (k : string) (ps : list (string * value)) : option value :=
  match ps with
  | [] => None
  | (k', v) :: rest => if String.eqb k k' then Some v else assoc_first k rest
  end.

(** Every object literal nested in a value, outermost first. *)
Fixpoint objects (v : value) : list (list (string * value)) :=
  match v with
  | Obj ps => ps :: flat_map (fun kv => objects (snd kv)) ps
  | Arr vs => flat_map objects vs
  | _ => []
  end.

(** The integers a JavaScript number holds exactly. *)
Definition safe_integer (n : Z) : bool :=
  (- (2 ^ 53) <? n)%Z && (n <? 2 ^ 53)%Z.

End Literal.

Module Reader.
Import Js.

Inductive token : Type :=
| TIdent (s : string)
| TStr (s : string)
| TNum (digits : string)
| TPunct (c : ascii).

Inductive kind : Type :=
| KSpace
| KIdent
| KDigit (d : N)
| KQuote
| KPunct
| KBad.

Definition classify (c : ascii) : kind :=
  let n := N_of_ascii c in
  if (n =? 32)%N || (n =? 10)%N || (n =? 13)%N || (n =? 9)%N then KSpace
  else if (48 <=? n)%N && (n <=? 57)%N then KDigit (n - 48)%N
  else if ((65 <=? n)%N && (n <=? 90)%N) || ((97 <=? n)%N && (n <=? 122)%N)
          || (n =? 95)%N || (n =? 36)%N then KIdent
  else if (n =? 39)%N || (n =? 34)%N then KQuote
  else if existsb (Ascii.eqb c) ["{"; "}"; "["; "]"; ":"; ","; "="; ";"; "."]%char
       then KPunct
  else KBad.

(** What the scanner is in the middle of. *)
Inductive mode : Type :=
| Idle
| InIdent (acc : string)
| InNum (acc : string)
| InStr (quote : ascii) (acc : string).

Definition pending (m : mode) : list token :=
  match m with
  | InIdent a => [TIdent a]
  | InNum n => [TNum n]
  | _ => []
  end.

(** The mode after [c], when [c] continues the token being read. *)
Definition continue (m : mode) (c : ascii) : option mode :=
  match m, classify c with
  | InIdent a, (KIdent | KDigit _) => Some (InIdent (a ++ String c EmptyString))
  | InNum n, KDigit _ => Some (InNum (n ++ String c EmptyString))
  | _, _ => None
  end.

Definition emit (ts : list token) (rest : option (list token)) : option (list token) :=
  option_map (app ts) rest.

(** A character that stands for itself inside a quoted string: printable
    ASCII other than the backslash.  Escape sequences, line breaks, control
    characters and bytes outside ASCII are refused. *)
Definition plain (c : ascii) : bool :=
  let n := N_of_ascii c in
  (32 <=? n)%N && (n <? 127)%N && negb (Ascii.eqb c "\").

(** The tokens of the subset of JavaScript the file is written in:
    identifiers, runs of digits, quoted strings of plain characters, and
    punctuation.  Anything else is refused. *)
Fixpoint scan (m : mode) (s : string) : option (list token) :=
  match s with
  | EmptyString =>
      match m with
      | InStr _ _ => None
      | _ => Some (pending m)
      end
  | String c rest =>
      match m with
      | InStr q a =>
          if Ascii.eqb c q then emit [TStr a] (scan Idle rest)
          else if plain c then scan (InStr q (a ++ String c EmptyString)) rest
          else None
      | _ =>
          match continue m c with
          | Some m' => scan m' rest
          | None =>
              match classify c with
              | KSpace => emit (pending m) (scan Idle rest)
              | KIdent =>
                  emit (pending m) (scan (InIdent (String c EmptyString)) rest)
              | KDigit _ =>
                  emit (pending m) (scan (InNum (String c EmptyString)) rest)
              | KQuote => emit (pending m) (scan (InStr c "") rest)
              | KPunct => emit (pending m ++ [TPunct c]) (scan Idle rest)
              | KBad => None
              end
          end
      end
  end.

(** The value of a run of decimal digits. *)
Fixpoint digits_value (acc : N) (s : string) : option N :=
  match s with
  | EmptyString => Some acc
  | String c rest =>
      match Text.digit c with
      | Some k => digits_value (10 * acc + k)%N rest
      | None => None
      end
  end.

(** The number a run of digits denotes as a decimal integer literal.  A
    run that starts with a zero and goes on is refused (JavaScript reads
    it as octal, or not at all), and so is a number too large for a
    JavaScript number to hold exactly. *)
Definition decimal (digits : string) : option N :=
  match digits with
  | EmptyString => None
  | String c rest =>
      if Ascii.eqb c "0" && negb (String.eqb rest "") then None
      else
        match digits_value 0 digits with
        | Some n => if (n <? 2 ^ 53)%N then Some n else None
        | None => None
        end
  end.

(** The numeric literals of a token list, as written. *)
Fixpoint numerals (ts : list token) : list string :=
  match ts with
  | [] => []
  | TNum digits :: rest => digits :: numerals rest
  | _ :: rest => numerals rest
  end.

Definition opens (c : ascii) (ts : list token) : bool :=
  match ts with
  | TPunct c' :: _ => Ascii.eqb c c'
  | _ => false
  end.

(** Values: strings, decimal integers, [true], [false], array literals
    and object literals whose keys are identifiers or strings, other than
    [__proto__], which names no property; a comma may follow the last
    item.  [fuel] bounds the nesting and the number of items. *)
Fixpoint parse_value (fuel : nat) (ts : list token) {struct fuel}
  : option (value * list token) :=
  match fuel with
  | O => None
  | S f =>
      match ts with
      | TStr s :: r => Some (Str s, r)
      | TNum digits :: r =>
          match decimal digits with
          | Some n => Some (Num (Z.of_N n), r)
          | None => None
          end
      | TIdent w :: r =>
          if String.eqb w "true" then Some (Boolean true, r)
          else if String.eqb w "false" then Some (Boolean false, r)
          else None
      | TPunct c :: r =>
          if Ascii.eqb c "[" then
            match parse_items f r with
            | Some (vs, r') => Some (Arr vs, r')
            | None => None
            end
          else if Ascii.eqb c "{" then
            match parse_props f r with
            | Some (ps, r') => Some (Obj ps, r')
            | None => None
            end
          else None
      | [] => None
      end
  end
with parse_items (fuel : nat) (ts : list token) {struct fuel}
  : option (list value * list token) :=
  match fuel with
  | O => None
  | S f =>
      if opens "]" ts then Some ([], tl ts)
      else
        match parse_value f ts with
        | Some (v, TPunct c :: r) =>
            if Ascii.eqb c "," then
              match parse_items f r with
              | Some (vs, r') => Some (v :: vs, r')
              | None => None
              end
            else if Ascii.eqb c "]" then Some ([v], r)
            else None
        | _ => None
        end
  end
with parse_props (fuel : nat) (ts : list token) {struct fuel}
  : option (list (string * value) * list token) :=
  match fuel with
  | O => None
  | S f =>
      if opens "}" ts then Some ([], tl ts)
      else
        match ts with
        | (TIdent k | TStr k) :: TPunct colon :: r =>
            if Ascii.eqb colon ":" && negb (String.eqb k "__proto__") then
              match parse_value f r with
              | Some (v, TPunct c :: r') =>
                  if Ascii.eqb c "," then
                    match parse_props f r' with
                    | Some (ps, r'') => Some ((k, v) :: ps, r'')
                    | None => None
                    end
                  else if Ascii.eqb c "}" then Some ([(k, v)], r')
                  else None
              | _ => None
              end
            else None
        | _ => None
        end
  end.

(** The value a module text assigns to [module.exports], when the text is
    that one assignment.  The reader's fuel is the number of tokens of the
    value, plus [extra]. *)
Definition exports_with (extra : nat) (text : string) : option value :=
  match scan Idle text with
  | Some (TIdent m :: TPunct dot :: TIdent e :: TPunct eq :: ts) =>
      if String.eqb m "module" && Ascii.eqb dot "." && String.eqb e "exports"
         && Ascii.eqb eq "="
      then
        match parse_value (extra + List.length ts) ts with
        | Some (v, []) => Some v
        | Some (v, [TPunct semi]) => if Ascii.eqb semi ";" then Some v else None
        | _ => None
        end
      else None
  | _ => None
  end.

Definition exports (text : string) : option value := exports_with 0 text.

End Reader.

(* ===================================================================== *)
(** * Facts about the document *)
(* ===================================================================== *)

Section Document.
Import Js Ecosystem.

(** The text has the size of the file, 592 bytes, and 25 line feeds. *)
Lemma source_text_size :
  String.length Source.ecosystem_config_js = 592%nat /\
  Source.line_feeds Source.ecosystem_config_js = 25%nat.
Proof. split; reflexivity. Qed.

(** The text and the value agree on the keys: the keys bound by the lines
    of the text are the keys of the literal, in the same order. *)
Lemma text_binds_the_keys_of_the_value :
  omap Schema.key_of_line (Source.lines Source.ecosystem_config_js)
  = Schema.all_keys module_exports.
Proof. vm_compute. reflexivity. Qed.

(** C7: the source configuration file is exactly 26 lines long: 25 lines
    ended by a line feed and a last line, the closing [};], that is not. *)
Theorem source_file_has_26_lines :
  List.length (Source.lines Source.ecosystem_config_js) = 26%nat /\
  List.last (Source.lines Source.ecosystem_config_js) "" = "};".
Proof. split; vm_compute; reflexivity. Qed.

(** C1: the single entry of [apps] provides every field the supervisor
    consumes at load time, each with its stated shape. *)
Theorem app_entry_provides_consumed_fields :
  apps = [app0] /\
  Forall (Schema.provides app0) Schema.consumed_fields /\
  keys app0 = map fst Schema.consumed_fields.
Proof.
  split; [reflexivity|]. split; [|reflexivity].
  unfold Schema.consumed_fields.
  repeat (constructor; [vm_compute; reflexivity|]). constructor.
Qed.

(** The loader accepts the document and produces its one descriptor. *)
Lemma load_module_exports :
  Config.load module_exports = Config.Ok [Config.uml_mail_fastapi].
Proof. vm_compute. reflexivity. Qed.

(** C8: [apps] holds exactly one descriptor, named uml-mail-fastapi, and
    it asks for a single process: one instance, in fork mode. *)
Theorem single_fork_descriptor :
  List.length apps = 1%nat /\
  apps = [app0] /\
  prop "name" app0 = Some (Str "uml-mail-fastapi") /\
  prop "instances" app0 = Some (Num 1) /\
  prop "exec_mode" app0 = Some (Str "fork") /\
  (exists d, Config.load module_exports = Config.Ok [d] /\
             Config.name d = "uml-mail-fastapi" /\
             Config.instances d = 1%nat /\
             Config.mode d = Config.Fork).
Proof.
  repeat split; try reflexivity.
  exists Config.uml_mail_fastapi. repeat split; vm_compute; reflexivity.
Qed.

(** C9: the three log targets are pairwise distinct relative paths, each
    a file directly inside [./logs/]; they stay distinct once [.] segments
    are resolved, so no two streams write the same file. *)
Theorem log_targets_do_not_alias :
  exists e o c,
    prop "error_file" app0 = Some (Str e) /\
    prop "out_file" app0 = Some (Str o) /\
    prop "log_file" app0 = Some (Str c) /\
    e = "./logs/error.log" /\ o = "./logs/out.log" /\ c = "./logs/combined.log" /\
    (e <> o /\ e <> c /\ o <> c) /\
    Forall (fun p => Text.is_absolute p = false) [e; o; c] /\
    Forall (fun p => String.prefix "./logs/" p = true) [e; o; c] /\
    Forall (fun p => Text.inside "./logs/" p = true) [e; o; c] /\
    NoDup [Text.resolve e; Text.resolve o; Text.resolve c].
Proof.
  exists "./logs/error.log", "./logs/out.log", "./logs/combined.log".
  repeat match goal with |- _ /\ _ => split end;
    try reflexivity; try discriminate;
    try (repeat constructor; vm_compute; reflexivity).
  apply (bool_decide_unpack _). vm_compute. reflexivity.
Qed.

(** C10: the descriptor mixes representations.  [env] binds a string
    (NODE_ENV) and a number (PORT); [min_uptime] and [max_memory_restart]
    are strings made of a count and a unit suffix, while [listen_timeout]
    and [kill_timeout] are plain numbers; and the numbers of the file are
    those of instances, PORT, max_restarts, listen_timeout and
    kill_timeout, every one a positive integer. *)
Theorem descriptor_mixes_representations :
  (exists env,
     prop "env" app0 = Some env /\
     prop "NODE_ENV" env = Some (Str "production") /\
     prop "PORT" env = Some (Num 3001)) /\
  (prop "min_uptime" app0 = Some (Str "10s") /\
   Text.has_unit_suffix "10s" = true /\
   Text.leading_number None "10s" = (Some 10%N, "s")) /\
  (prop "max_memory_restart" app0 = Some (Str "500M") /\
   Text.has_unit_suffix "500M" = true /\
   Text.leading_number None "500M" = (Some 500%N, "M")) /\
  prop "listen_timeout" app0 = Some (Num 10000) /\
  prop "kill_timeout" app0 = Some (Num 5000) /\
  numbers "" module_exports
  = [ ("instances", 1%Z); ("PORT", 3001%Z); ("max_restarts", 10%Z)
    ; ("listen_timeout", 10000%Z); ("kill_timeout", 5000%Z) ] /\
  Forall (fun kn => (0 < snd kn)%Z) (numbers "" module_exports).
Proof.
  split.
  { exists (Obj [ ("NODE_ENV", Str "production"); ("PORT", Num 3001) ]).
    repeat split; reflexivity. }
  repeat split; try reflexivity.
  vm_compute. repeat constructor.
Qed.

End Document.

(* ===================================================================== *)
(** * The restart policy *)
(* ===================================================================== *)

Section RestartPolicy.
Import Config Controller.

Variable d : AppDescriptor.

Lemma count_app (f : action -> bool) (a b : list action) :
  count f (a ++ b) = (count f a + count f b)%nat.
Proof. unfold count. rewrite List.filter_app, List.length_app. reflexivity. Qed.

Lemma visited_app (a b : list action) : visited (a ++ b) = visited a ++ visited b.
Proof.
  induction a as [|x a IH]; [reflexivity|].
  destruct x; simpl; rewrite IH; reflexivity.
Qed.

(** A process exit while the child is up goes through [Crashed]. *)
Lemma step_exited_up (p : ProcessInstance) (now : N) :
  up (current p) = true -> step d p now Exited = on_exit d now p.
Proof.
  unfold step. destruct (current p); simpl; intros H;
    try discriminate H; reflexivity.
Qed.

(** [Stopped] is terminal: no event leaves it or causes any action. *)
Lemma stopped_is_terminal (p : ProcessInstance) (now : N) (e : event) :
  terminal (current p) = true -> step d p now e = (p, []).
Proof.
  unfold step. destruct (current p); simpl; intros H;
    try discriminate H. destruct e; reflexivity.
Qed.

Lemma run_terminal (p : ProcessInstance) (evs : list (N * event)) :
  terminal (current p) = true -> run d p evs = (p, []).
Proof.
  intros H. induction evs as [|[now e] evs IH]; [reflexivity|].
  simpl. rewrite stopped_is_terminal by exact H. rewrite IH. reflexivity.
Qed.

(** The event loop, one event at a time. *)
Lemma run_cons_eq (p q : ProcessInstance) (now : N) (e : event)
  (a : list action) (rest : list (N * event)) :
  step d p now e = (q, a) ->
  run d p ((now, e) :: rest) = (fst (run d q rest), a ++ snd (run d q rest)).
Proof.
  intros H. cbn [run]. rewrite H. destruct (run d q rest); reflexivity.
Qed.

(** The kill deadline, once due, fires: the child is terminated by force
    and the deadline is spent. *)
Lemma step_kill_deadline_due (p : ProcessInstance) (why : intent) (t now : N) :
  current p = Stopping why -> kill_deadline p = Some t -> (t <= now)%N ->
  step d p now KillDeadline
  = (mkProc (started_at p) (restart_count p) (Stopping why) None None,
     [Handled ShutdownTimeout; SendKill now]).
Proof.
  intros Hc Hk Ht. unfold step. rewrite Hc, Hk. cbn [due].
  destruct (N.leb_spec t now); [|lia]. destruct why; reflexivity.
Qed.

Lemma crash_loop_terminal (fuel : nat) (life : nat -> N) (k : nat)
  (p : ProcessInstance) :
  terminal (current p) = true -> crash_loop fuel d life k p = (p, []).
Proof. intros H. destruct fuel; simpl; [|rewrite H]; reflexivity. Qed.

(** The exit of a rapid run under [autorestart]: one more restart while
    the counter is below [max_restarts], the terminal failure after. *)
Lemma on_exit_rapid (p : ProcessInstance) (now : N) :
  autorestart d = true -> rapid d now p = true ->
  on_exit d now p =
  if (restart_count p <? max_restarts d)%nat then
    (mkProc now (S (restart_count p)) Starting
       (Some (now + listen_timeout d)%N) None,
     [Enter Crashed; Handled RuntimeCrash; Spawn AfterCrash now; Enter Starting])
  else
    (mkProc (started_at p) (restart_count p) (Stopped Failure) None None,
     [Enter Crashed; Handled RuntimeCrash;
      Enter (Stopped Failure); Surfaced RestartQuotaExhausted]).
Proof.
  intros Ha Hr. unfold on_exit, crash, evaluate, launch, move. simpl.
  rewrite Hr, Ha. simpl.
  destruct (restart_count p <? max_restarts d)%nat; reflexivity.
Qed.

Section CrashLoop.

Variable life : nat -> N.
Hypothesis restart_on : autorestart d = true.
Hypothesis always_rapid : forall k, (life k < min_uptime d)%N.

Lemma rapid_life (p : ProcessInstance) (k : nat) :
  rapid d (started_at p + life k)%N p = true.
Proof.
  unfold rapid, uptime. apply N.ltb_lt.
  specialize (always_rapid k). lia.
Qed.

(** One turn of the loop while the quota lasts: crash, restart, go on. *)
Lemma crash_loop_restart (fuel k : nat) (p : ProcessInstance) :
  current p = Starting ->
  (restart_count p < max_restarts d)%nat ->
  let now := (started_at p + life k)%N in
  let q := mkProc now (S (restart_count p)) Starting
             (Some (now + listen_timeout d)%N) None in
  crash_loop (S fuel) d life k p
  = (fst (crash_loop fuel d life (S k) q),
     [Enter Crashed; Handled RuntimeCrash; Spawn AfterCrash now; Enter Starting]
     ++ snd (crash_loop fuel d life (S k) q)).
Proof.
  intros Hs Hlt. cbv zeta. cbn [crash_loop].
  rewrite step_exited_up by (rewrite Hs; reflexivity).
  rewrite on_exit_rapid by auto using rapid_life.
  rewrite Hs. cbn [terminal].
  destruct (Nat.ltb_spec (restart_count p) (max_restarts d)); [|lia].
  destruct (crash_loop fuel d life (S k) _); reflexivity.
Qed.

(** The last turn, once the quota is spent: crash, terminal failure. *)
Lemma crash_loop_give_up (fuel k : nat) (p : ProcessInstance) :
  current p = Starting ->
  (max_restarts d <= restart_count p)%nat ->
  crash_loop (S fuel) d life k p
  = (mkProc (started_at p) (restart_count p) (Stopped Failure) None None,
     [Enter Crashed; Handled RuntimeCrash;
      Enter (Stopped Failure); Surfaced RestartQuotaExhausted]).
Proof.
  intros Hs Hge. cbn [crash_loop].
  rewrite step_exited_up by (rewrite Hs; reflexivity).
  rewrite on_exit_rapid by auto using rapid_life.
  rewrite Hs. cbn [terminal].
  destruct (Nat.ltb_spec (restart_count p) (max_restarts d)); [lia|].
  rewrite crash_loop_terminal by reflexivity. reflexivity.
Qed.

(** With [n] restarts left in the quota and fuel for them, the loop makes
    exactly [n] restarts and stops in failure, surfaced once. *)
Lemma crash_loop_spends_quota (n : nat) :
  forall (fuel k : nat) (p : ProcessInstance),
    current p = Starting ->
    (restart_count p + n)%nat = max_restarts d ->
    (n < fuel)%nat ->
    current (fst (crash_loop fuel d life k p)) = Stopped Failure /\
    restarts (snd (crash_loop fuel d life k p)) = n /\
    launches (snd (crash_loop fuel d life k p)) = n /\
    count is_surfaced (snd (crash_loop fuel d life k p)) = 1%nat.
Proof.
  induction n as [|n IH]; intros fuel k p Hs Hq Hf;
    (destruct fuel as [|fuel]; [lia|]).
  - rewrite crash_loop_give_up by (auto; lia). cbn. auto.
  - rewrite crash_loop_restart by (auto; lia). cbn [fst snd].
    unfold restarts, launches. rewrite !count_app.
    edestruct (IH fuel (S k)) as (H1 & H2 & H3 & H4);
      [ | | | rewrite H1; unfold restarts, launches in H2, H3;
              rewrite H2, H3, H4; auto ];
      [reflexivity | cbn; lia | lia].
Qed.

(** Whatever the fuel, the restarts made never exceed what is left of the
    quota. *)
Lemma crash_loop_within_quota (fuel : nat) :
  forall (k : nat) (p : ProcessInstance),
    current p = Starting ->
    (restart_count p <= max_restarts d)%nat ->
    (restart_count p + restarts (snd (crash_loop fuel d life k p))
     <= max_restarts d)%nat.
Proof.
  induction fuel as [|fuel IH]; intros k p Hs Hq; [cbn; lia|].
  destruct (Nat.lt_ge_cases (restart_count p) (max_restarts d)) as [Hlt|Hge].
  - rewrite crash_loop_restart by auto. cbn [snd].
    unfold restarts. rewrite count_app.
    match goal with
    | |- context [crash_loop fuel d life (S k) ?q] =>
        specialize (IH (S k) q eq_refl)
    end.
    unfold restarts in IH. cbn in IH |- *. lia.
  - rewrite crash_loop_give_up by auto. cbn. lia.
Qed.

Lemma supervise_crashing_eq (t0 : N) (fuel : nat) :
  supervise_crashing fuel d life t0
  = (fst (crash_loop fuel d life 0 (fst (launch d Initial t0 0))),
     [Spawn Initial t0; Enter Starting]
     ++ snd (crash_loop fuel d life 0 (fst (launch d Initial t0 0)))).
Proof.
  unfold supervise_crashing, launch. cbn [fst].
  destruct (crash_loop fuel d life 0 _); reflexivity.
Qed.

(** The whole supervision, from the first launch at [t0]. *)
Lemma supervise_crashing_spends_quota (t0 : N) (fuel : nat) :
  (max_restarts d < fuel)%nat ->
  current (fst (supervise_crashing fuel d life t0)) = Stopped Failure /\
  restarts (snd (supervise_crashing fuel d life t0)) = max_restarts d /\
  launches (snd (supervise_crashing fuel d life t0)) = S (max_restarts d) /\
  count is_surfaced (snd (supervise_crashing fuel d life t0)) = 1%nat.
Proof.
  intros Hf. rewrite supervise_crashing_eq. cbn [fst snd].
  unfold restarts, launches. rewrite !count_app.
  destruct (crash_loop_spends_quota (max_restarts d) fuel 0
              (fst (launch d Initial t0 0)))
    as (H1 & H2 & H3 & H4); [reflexivity | reflexivity | exact Hf |].
  unfold restarts, launches in H2, H3. rewrite H1, H2, H3, H4. auto.
Qed.

Lemma supervise_crashing_within_quota (t0 : N) (fuel : nat) :
  (restarts (snd (supervise_crashing fuel d life t0)) <= max_restarts d)%nat.
Proof.
  rewrite supervise_crashing_eq. cbn [snd].
  unfold restarts. rewrite count_app.
  pose proof (crash_loop_within_quota fuel 0 (fst (launch d Initial t0 0))
                eq_refl) as H.
  unfold restarts in H. cbn in H |- *. lia.
Qed.

End CrashLoop.

End RestartPolicy.

(** Dispatch the next event of a schedule: by computation, or, for a kill
    deadline that is due, by [step_kill_deadline_due]. *)
Ltac dispatch := erewrite run_cons_eq by reflexivity.
Ltac dispatch_kill deadline :=
  erewrite run_cons_eq
    by (eapply step_kill_deadline_due with (now := deadline);
        [reflexivity | reflexivity | lia]).

Section RestartClaims.
Import Config Controller.

(** The scenario of the document: [max_restarts] 3, [min_uptime] 10 s, a
    child that always exits after 1 s: 3 restarts, 4 launches, failure. *)
Example scenario_three_restarts (d : AppDescriptor) (t0 : N) :
  autorestart d = true -> max_restarts d = 3%nat -> min_uptime d = 10000%N ->
  current (fst (supervise_crashing 4 d (fun _ => 1000%N) t0)) = Stopped Failure /\
  restarts (snd (supervise_crashing 4 d (fun _ => 1000%N) t0)) = 3%nat /\
  launches (snd (supervise_crashing 4 d (fun _ => 1000%N) t0)) = 4%nat.
Proof.
  intros Ha Hm Hu.
  destruct (supervise_crashing_spends_quota d (fun _ => 1000%N) Ha) with
    (t0 := t0) (fuel := 4%nat) as (H1 & H2 & H3 & _).
  - intros _. rewrite Hu. reflexivity.
  - lia.
  - rewrite Hm in H2, H3. auto.
Qed.

(** C2: under [autorestart], with [max_restarts = N], a child that exits
    at once on every launch (each run shorter than [min_uptime]) is
    restarted exactly [N] times, [N + 1] launches in all; the controller
    then stops in the terminal failure state, reported once, and no
    amount of further running brings an [N + 1]-th restart. *)
Theorem crash_loop_makes_exactly_max_restarts
  (d : AppDescriptor) (life : nat -> N) (t0 : N) (fuel : nat) :
  autorestart d = true ->
  (forall k, (life k < min_uptime d)%N) ->
  (max_restarts d < fuel)%nat ->
  current (fst (supervise_crashing fuel d life t0)) = Stopped Failure /\
  restarts (snd (supervise_crashing fuel d life t0)) = max_restarts d /\
  launches (snd (supervise_crashing fuel d life t0)) = S (max_restarts d) /\
  count is_surfaced (snd (supervise_crashing fuel d life t0)) = 1%nat /\
  (forall fuel' : nat,
     (restarts (snd (supervise_crashing fuel' d life t0)) <= max_restarts d)%nat) /\
  (forall now e,
     step d (fst (supervise_crashing fuel d life t0)) now e
     = (fst (supervise_crashing fuel d life t0), [])).
Proof.
  intros Ha Hr Hf.
  destruct (supervise_crashing_spends_quota d life Ha Hr t0 fuel Hf)
    as (H1 & H2 & H3 & H4).
  repeat split; auto.
  - intros fuel'. apply supervise_crashing_within_quota; assumption.
  - intros now e. apply stopped_is_terminal. rewrite H1. reflexivity.
Qed.

(** At this repository's descriptor: ten restarts, eleven launches. *)
Lemma crash_loop_makes_exactly_max_restarts_witness :
  autorestart uml_mail_fastapi = true /\
  max_restarts uml_mail_fastapi = 10%nat /\
  current (fst (supervise_crashing 11 uml_mail_fastapi (fun _ => 0%N) 0))
  = Stopped Failure /\
  restarts (snd (supervise_crashing 11 uml_mail_fastapi (fun _ => 0%N) 0))
  = 10%nat /\
  launches (snd (supervise_crashing 11 uml_mail_fastapi (fun _ => 0%N) 0))
  = 11%nat.
Proof.
  split; [reflexivity|]. split; [reflexivity|].
  destruct (crash_loop_makes_exactly_max_restarts uml_mail_fastapi
              (fun _ => 0%N) 0%N 11%nat) as (H1 & H2 & H3 & _).
  - reflexivity.
  - intros _. reflexivity.
  - simpl. lia.
  - exact (conj H1 (conj H2 H3)).
Defined.

(** C3: a process exit while the child is up passes through [Crashed],
    where a run of at least [min_uptime] has already put the counter back
    to zero; the restart policy is evaluated on that counter; and on the
    [Crashed -> Starting] transition the counter grows, by one, only when
    the prior run was shorter than [min_uptime]. *)
Theorem restart_counter_counts_rapid_crashes_only
  (d : AppDescriptor) (p : ProcessInstance) (now : N) :
  up (current p) = true ->
  let crashed := fst (crash d now p) in
  let q := fst (step d p now Exited) in
  visited (snd (step d p now Exited)) = [Crashed; current q] /\
  ((min_uptime d <= uptime now p)%N -> restart_count crashed = 0%nat) /\
  ((uptime now p < min_uptime d)%N -> restart_count crashed = restart_count p) /\
  (current q = Starting <->
   autorestart d = true /\ (restart_count crashed < max_restarts d)%nat) /\
  (current q = Starting ->
   ((uptime now p < min_uptime d)%N -> restart_count q = S (restart_count p)) /\
   ((min_uptime d <= uptime now p)%N -> restart_count q = 0%nat) /\
   ((restart_count p < restart_count q)%nat -> (uptime now p < min_uptime d)%N)).
Proof.
  intros Hup. cbv zeta. rewrite step_exited_up by exact Hup.
  unfold on_exit, crash, evaluate, launch, move, rapid. cbn [fst snd].
  destruct (N.ltb_spec (uptime now p) (min_uptime d)) as [Hlt|Hge];
    destruct (autorestart d);
    cbn [andb restart_count current fst snd];
    try (destruct (Nat.ltb_spec (restart_count p) (max_restarts d)));
    try (destruct (Nat.ltb_spec 0 (max_restarts d)));
    cbn [restart_count current fst snd app visited];
    repeat split; intros; try reflexivity; try discriminate;
    try lia; try tauto;
    repeat match goal with H : _ /\ _ |- _ => destruct H end;
    try discriminate; try lia.
Qed.

(** At this repository's descriptor: after two rapid crashes a run of
    20 s crashes; the counter is zero in [Crashed] and after the restart. *)
Lemma restart_counter_counts_rapid_crashes_only_witness :
  let p := mkProc 0 2 Running None None in
  up (current p) = true /\
  restart_count (fst (crash uml_mail_fastapi 20000 p)) = 0%nat /\
  current (fst (step uml_mail_fastapi p 20000 Exited)) = Starting /\
  restart_count (fst (step uml_mail_fastapi p 20000 Exited)) = 0%nat.
Proof.
  cbv zeta.
  destruct (restart_counter_counts_rapid_crashes_only uml_mail_fastapi
              (mkProc 0 2 Running None None) 20000%N eq_refl)
    as (_ & H0 & _ & _ & H).
  split; [reflexivity|]. split; [apply H0; vm_compute; discriminate|].
  split; [reflexivity|]. apply H; [reflexivity | vm_compute; discriminate].
Defined.

(** A sample at or below the ceiling changes nothing. *)
Lemma memory_below_ceiling (d : AppDescriptor) (p : ProcessInstance) (rss now : N) :
  (rss <= max_memory_restart d)%N -> step d p now (Memory rss) = (p, []).
Proof.
  intros H. unfold step.
  destruct (current p) as [| | |[]| |]; try reflexivity.
  destruct (N.ltb_spec (max_memory_restart d) rss); [lia | reflexivity].
Qed.

(** C4: a sample above [max_memory_restart] takes a running child through
    [Stopping] to [Starting]; the restart is handled as a resource limit,
    never enters [Crashed], counts as no crash-loop restart, and the
    restart counter is the same before, during and after it, whether the
    child exits on the graceful signal or only after the kill deadline. *)
Theorem memory_restart_leaves_quota_unchanged
  (d : AppDescriptor) (p : ProcessInstance) (rss t1 t2 : N) (forced : bool) :
  current p = Running ->
  (max_memory_restart d < rss)%N ->
  let stopping := fst (step d p t1 (Memory rss)) in
  let out := run d p (memory_restart_schedule d rss t1 t2 forced) in
  current stopping = Stopping ByMemoryLimit /\
  restart_count stopping = restart_count p /\
  visited (snd out) = [Stopping ByMemoryLimit; Starting] /\
  current (fst out) = Starting /\
  restart_count (fst out) = restart_count p /\
  restarts (snd out) = 0%nat /\
  List.filter is_spawn (snd out) = [Spawn AfterMemoryLimit t2] /\
  In (Handled ResourceLimitExceeded) (snd out) /\
  ~ In (Handled RuntimeCrash) (snd out) /\
  count is_surfaced (snd out) = 0%nat.
Proof.
  intros Hc Hm. cbv zeta.
  assert (Hs : step d p t1 (Memory rss)
               = (mkProc (started_at p) (restart_count p)
                    (Stopping ByMemoryLimit) None (Some (t1 + kill_timeout d)%N),
                  [Handled ResourceLimitExceeded;
                   Enter (Stopping ByMemoryLimit); SendTerm t1])).
  { unfold step. rewrite Hc.
    destruct (N.ltb_spec (max_memory_restart d) rss); [reflexivity | lia]. }
  unfold memory_restart_schedule.
  destruct forced; cbn [app];
    rewrite (run_cons_eq d _ _ _ _ _ _ Hs);
    [ dispatch_kill (t1 + kill_timeout d)%N | ];
    dispatch;
    cbn; (repeat split; try reflexivity; auto);
    try (rewrite Hs; reflexivity).
  - intros [H|[H|[H|[H|[H|[H|[H|[]]]]]]]]; discriminate H.
  - intros [H|[H|[H|[H|[H|[]]]]]]; discriminate H.
Qed.

(** At this repository's descriptor: 600 MiB resident after one rapid
    crash; the child is restarted and the counter is still one. *)
Lemma memory_restart_leaves_quota_unchanged_witness :
  let p := mkProc 0 1 Running None None in
  let rss := (600 * 1024 * 1024)%N in
  current p = Running /\
  (max_memory_restart uml_mail_fastapi < rss)%N /\
  visited (snd (run uml_mail_fastapi p
                  (memory_restart_schedule uml_mail_fastapi rss 60000 61000 false)))
  = [Stopping ByMemoryLimit; Starting] /\
  restart_count (fst (run uml_mail_fastapi p
                  (memory_restart_schedule uml_mail_fastapi rss 60000 61000 false)))
  = 1%nat.
Proof.
  cbv zeta.
  assert (Hm : (max_memory_restart uml_mail_fastapi < 600 * 1024 * 1024)%N)
    by (vm_compute; reflexivity).
  destruct (memory_restart_leaves_quota_unchanged uml_mail_fastapi
              (mkProc 0 1 Running None None) (600 * 1024 * 1024)%N
              60000%N 61000%N false eq_refl Hm)
    as (_ & _ & Hv & _ & Hr & _).
  exact (conj eq_refl (conj Hm (conj Hv Hr))).
Defined.

End RestartClaims.

(* ===================================================================== *)
(** * Shutdown and the two deadlines *)
(* ===================================================================== *)

Section Lifecycle.
Import Config Controller.

Lemma step_stop_request (d : AppDescriptor) (p : ProcessInstance) (now : N) :
  up (current p) = true ->
  step d p now StopRequest
  = (mkProc (started_at p) (restart_count p) (Stopping ByRequest) None
       (Some (now + kill_timeout d)%N),
     [Enter (Stopping ByRequest); SendTerm now]).
Proof.
  unfold step. destruct (current p); simpl; intros H;
    try discriminate H; reflexivity.
Qed.

(** The kill deadline is spent by firing. *)
Lemma kill_deadline_is_one_shot (d : AppDescriptor) (q q' : ProcessInstance)
  (t : N) (a : list action) :
  step d q t KillDeadline = (q', a) -> a <> [] ->
  kill_deadline q' = None /\
  forall t', step d q' t' KillDeadline = (q', []).
Proof.
  intros H Ha. unfold step in H.
  destruct (current q) as [| | |why| |] eqn:Hq; cbn in H; try congruence.
  assert (Hq' : due (kill_deadline q) t = true /\
                q' = mkProc (started_at q) (restart_count q) (Stopping why) None None).
  { destruct why, (due (kill_deadline q) t); split; congruence. }
  destruct Hq' as [_ ->]. split; [reflexivity|].
  intros t'. destruct why; reflexivity.
Qed.

(** The listen deadline is spent by firing. *)
Lemma listen_deadline_is_one_shot (d : AppDescriptor) (q q' : ProcessInstance)
  (t : N) (a : list action) :
  step d q t ListenDeadline = (q', a) -> a <> [] ->
  listen_deadline q' = None /\
  forall t', step d q' t' ListenDeadline = (q', []).
Proof.
  intros H Ha. unfold step in H.
  destruct (current q) as [| | |[]| |] eqn:Hq; cbn in H; try congruence.
  destruct (due (listen_deadline q) t); [|congruence].
  assert (Hq' : q' = move Listening q) by congruence.
  subst q'. split; reflexivity.
Qed.

(** [kill_timeout] is read by a stop request and by a memory-triggered
    stop, and by nothing else. *)
Lemma kill_timeout_only_when_stopping (d : AppDescriptor) (x : N)
  (q : ProcessInstance) (t : N) (e : event) :
  e <> StopRequest -> (forall rss, e <> Memory rss) ->
  step (with_kill_timeout x d) q t e = step d q t e.
Proof.
  intros H1 H2. unfold step.
  destruct (current q) as [| | |[]| |]; destruct e; try reflexivity;
    try congruence; exfalso; eapply H2; reflexivity.
Qed.

(** [listen_timeout] is read at a launch, and by nothing else: a step
    that spawns no child does not depend on it. *)
Lemma listen_timeout_only_at_launch (d : AppDescriptor) (x : N)
  (q : ProcessInstance) (t : N) (e : event) :
  e <> Exited ->
  step (with_listen_timeout x d) q t e = step d q t e.
Proof.
  intros H. unfold step.
  destruct (current q) as [| | |[]| |]; destruct e; try reflexivity; congruence.
Qed.

(** A stop request that finds the child being stopped: the graceful signal
    again, the deadline in flight untouched. *)
Lemma step_stop_request_stopping (d : AppDescriptor) (p : ProcessInstance)
  (why : intent) (now : N) :
  current p = Stopping why ->
  exists head,
    step d p now StopRequest
    = (mkProc (started_at p) (restart_count p) (Stopping ByRequest)
         (match why with ByRequest => listen_deadline p | ByMemoryLimit => None end)
         (kill_deadline p),
       head ++ [SendTerm now]) /\
    (head = [] \/ head = [Enter (Stopping ByRequest)]).
Proof.
  intros Hc. unfold step. rewrite Hc. destruct why.
  - exists []. split; [|left; reflexivity].
    destruct p as [sa rc st ld kd]. cbn in Hc |- *. subst st. reflexivity.
  - exists [Enter (Stopping ByRequest)]. split; [reflexivity | right; reflexivity].
Qed.

Section Await.

Variable d : AppDescriptor.
Variables (q : ProcessInstance) (deadline : N).
Hypothesis stopping : current q = Stopping ByRequest.
Hypothesis armed : kill_deadline q = Some deadline.

Let stopped : ProcessInstance := move (Stopped Normal) q.

(** While a stop by request is pending, a wakeup at [t] does one of three
    things.  The child has exited by then: the exit is recorded. *)
Lemma await_exit (exit_at : option N) (t e : N) (rest : list N) :
  first_exit exit_at t = Some e ->
  await d exit_at (t :: rest) q = (stopped, [Enter (Stopped Normal)], Some e).
Proof.
  intros H. cbn [await]. rewrite H. unfold child_exit, step.
  rewrite stopping. reflexivity.
Qed.

(** The deadline has passed: the child is terminated by force, at [t]. *)
Lemma await_kill (exit_at : option N) (t : N) (rest : list N) :
  first_exit exit_at t = None -> (deadline <= t)%N ->
  await d exit_at (t :: rest) q
  = (stopped,
     [Handled ShutdownTimeout; SendKill t; Enter (Stopped Normal)], Some t).
Proof.
  intros H Hd. cbn [await]. rewrite H.
  rewrite (step_kill_deadline_due d q ByRequest deadline t stopping armed Hd).
  reflexivity.
Qed.

(** The deadline is still ahead: nothing happens. *)
Lemma await_early (exit_at : option N) (t : N) (rest : list N) :
  first_exit exit_at t = None -> (t < deadline)%N ->
  await d exit_at (t :: rest) q = await d exit_at rest q.
Proof.
  intros H Hd. cbn [await]. rewrite H.
  assert (Hs : step d q t KillDeadline = (q, [])).
  { unfold step. rewrite stopping, armed. cbn [due].
    destruct (N.leb_spec deadline t); [lia | reflexivity]. }
  rewrite Hs. cbn [existsb]. destruct (await d exit_at rest q) as [[s b] fin].
  reflexivity.
Qed.

Lemma first_exit_None (exit_at : option N) (t : N) :
  first_exit exit_at t = None <->
  (forall e, exit_at = Some e -> (t < e)%N).
Proof.
  unfold first_exit. destruct exit_at as [e|].
  - destruct (N.leb_spec e t) as [Hle|Hgt]; split; intros H.
    + discriminate H.
    + specialize (H e eq_refl). lia.
    + intros e' [= <-]. exact Hgt.
    + reflexivity.
  - split; [intros _ e H; discriminate H | reflexivity].
Qed.

Lemma first_exit_Some (exit_at : option N) (t e : N) :
  first_exit exit_at t = Some e <-> exit_at = Some e /\ (e <= t)%N.
Proof.
  unfold first_exit. destruct exit_at as [e'|].
  - destruct (N.leb_spec e' t) as [Hle|Hgt]; split.
    + intros [= <-]. auto.
    + intros [[= <-] _]. reflexivity.
    + discriminate.
    + intros [[= <-] ?]. lia.
  - split; [discriminate | intros [H _]; discriminate H].
Qed.

Lemma first_exit_later (exit_at : option N) (t t' : N) :
  first_exit exit_at t' = None -> (t <= t')%N -> first_exit exit_at t = None.
Proof.
  rewrite !first_exit_None. intros H Ht e He. specialize (H e He). lia.
Qed.

(** What the wait comes to, with early wakeups before [bound] and the
    timer's own at the deadline: the child exits of itself, or it is
    terminated by force at a wakeup not before the deadline; either way by
    [bound]. *)
Lemma await_cases (exit_at : option N) (bound : N) (early : list N) :
  (deadline <= bound)%N ->
  Forall (fun t => (t < bound)%N) early ->
  (exists e,
     exit_at = Some e /\ (e <= bound)%N /\
     await d exit_at (early ++ [deadline]) q
     = (stopped, [Enter (Stopped Normal)], Some e)) \/
  (exists t,
     (deadline <= t <= bound)%N /\ first_exit exit_at t = None /\
     await d exit_at (early ++ [deadline]) q
     = (stopped,
        [Handled ShutdownTimeout; SendKill t; Enter (Stopped Normal)], Some t)).
Proof.
  intros Hb Hearly.
  induction Hearly as [|t early Ht _ IH]; cbn [app].
  - destruct (first_exit exit_at deadline) as [e|] eqn:E.
    + left. exists e. rewrite (await_exit _ _ _ _ E).
      apply first_exit_Some in E as [E He]. repeat split; [exact E | lia].
    + right. exists deadline. rewrite (await_kill _ _ _ E) by lia.
      repeat split; [lia | exact Hb | exact E].
  - destruct (first_exit exit_at t) as [e|] eqn:E.
    + left. exists e. rewrite (await_exit _ _ _ _ E).
      apply first_exit_Some in E as [E He]. repeat split; [exact E | lia].
    + destruct (N.lt_ge_cases t deadline) as [Hlt|Hge].
      * rewrite (await_early _ _ _ E Hlt). exact IH.
      * right. exists t. rewrite (await_kill _ _ _ E Hge).
        repeat split; [exact Hge | lia | exact E].
Qed.

(** Nothing in the wait reads the descriptor. *)
Lemma await_any_descriptor (d' : AppDescriptor) (exit_at : option N)
  (ticks : list N) :
  await d' exit_at ticks q = await d exit_at ticks q.
Proof.
  induction ticks as [|t ticks IH]; cbn [await].
  - destruct exit_at; [|reflexivity].
    unfold child_exit, step. rewrite stopping. reflexivity.
  - destruct (first_exit exit_at t).
    + unfold child_exit, step. rewrite stopping. reflexivity.
    + assert (Hs : step d' q t KillDeadline = step d q t KillDeadline)
        by (unfold step; rewrite stopping; reflexivity).
      rewrite Hs. destruct (step d q t KillDeadline) as [r a] eqn:Hr.
      destruct (existsb is_kill a) eqn:Hk.
      * assert (Hc : current r = Stopping ByRequest).
        { unfold step in Hr. rewrite stopping in Hr.
          destruct (due (kill_deadline q) t); injection Hr as <- <-;
            [reflexivity | exact stopping]. }
        unfold step. rewrite Hc. reflexivity.
      * assert (Hq : r = q).
        { unfold step in Hr. rewrite stopping in Hr.
          destruct (due (kill_deadline q) t); injection Hr as <- <-;
            [discriminate Hk | reflexivity]. }
        subst r. rewrite IH. reflexivity.
Qed.

End Await.

(** A stop request that finds a child to stop leaves the controller
    stopping by request, the graceful signal sent at [now], and a kill
    deadline in force: armed now from [kill_timeout] for a child that was
    up, the one already in flight for a child that was being stopped. *)
Lemma stop_request_arms (d : AppDescriptor) (p : ProcessInstance) (now : N) :
  stoppable d now p = true ->
  exists q head deadline,
    step d p now StopRequest = (q, head ++ [SendTerm now]) /\
    (head = [] \/ head = [Enter (Stopping ByRequest)]) /\
    current q = Stopping ByRequest /\
    kill_deadline q = Some deadline /\
    (now <= deadline <= now + kill_timeout d)%N /\
    (up (current p) = true -> deadline = (now + kill_timeout d)%N) /\
    (up (current p) = false -> kill_deadline p = Some deadline).
Proof.
  unfold stoppable. intros H.
  destruct (current p) as [| | |why| |] eqn:Hc; try discriminate H;
    try (exists (mkProc (started_at p) (restart_count p) (Stopping ByRequest)
                   None (Some (now + kill_timeout d)%N)),
           [Enter (Stopping ByRequest)], (now + kill_timeout d)%N;
         rewrite step_stop_request by (rewrite Hc; reflexivity);
         repeat split; auto; try lia; discriminate).
  destruct (kill_deadline p) as [deadline|] eqn:Hk; [|discriminate H].
  apply andb_prop in H as [H1 H2]. apply N.leb_le in H1, H2.
  destruct (step_stop_request_stopping d p why now Hc) as (head & Hs & Hh).
  eexists _, head, deadline. rewrite Hs, Hk.
  repeat split; auto; try lia. discriminate.
Qed.

(** C6: a stop request that finds a child to stop (one that is up, or one
    already being stopped for the memory limit or by an earlier request)
    sends the graceful signal first, once.  The kill deadline in force is
    the one armed from [kill_timeout] at the request, or the one already
    in flight, never later than [kill_timeout] after the request.  However
    the event loop is woken before that, the child is terminated by force
    only at or after the deadline and only if it has not exited; a child
    that exits by the deadline is never killed.  The controller ends in
    the terminal state [Stopped], normal, with the child gone no later
    than [kill_timeout] after the request; the shutdown timeout is handled
    inside the controller and surfaces nothing.  A stop reads
    [kill_timeout] and not [listen_timeout]; a launch reads
    [listen_timeout] and not [kill_timeout]; a deadline that has fired is
    spent. *)
Theorem stop_request_ends_stopped_by_kill_timeout
  (d : AppDescriptor) (p : ProcessInstance) (now : N) (grace : option N)
  (early : list N) :
  stoppable d now p = true ->
  Forall (fun t => (t < now + kill_timeout d)%N) early ->
  let out := shutdown d p now grace early in
  let exit_at := option_map (N.add now) grace in
  (exists deadline,
     kill_deadline (fst (step d p now StopRequest)) = Some deadline /\
     (now <= deadline <= now + kill_timeout d)%N /\
     (up (current p) = true -> deadline = (now + kill_timeout d)%N) /\
     (up (current p) = false -> kill_deadline p = Some deadline) /\
     (forall t, In (SendKill t) (trace_of out) ->
        (deadline <= t <= now + kill_timeout d)%N /\
        first_exit exit_at t = None /\ exit_of out = Some t) /\
     (first_exit exit_at deadline <> None ->
        count is_kill (trace_of out) = 0%nat /\ exit_of out = exit_at)) /\
  List.find is_signal (trace_of out) = Some (SendTerm now) /\
  List.filter is_term (trace_of out) = [SendTerm now] /\
  (count is_kill (trace_of out) <= 1)%nat /\
  current (final_of out) = Stopped Normal /\
  (exists e, exit_of out = Some e /\ (now <= e <= now + kill_timeout d)%N) /\
  (up (current p) = true ->
     List.filter is_kill (trace_of out)
     = (if exited_in_time d grace then []
        else [SendKill (now + kill_timeout d)%N]) /\
     exit_of out
     = (if exited_in_time d grace then exit_at
        else Some (now + kill_timeout d)%N)) /\
  (grace = None -> count is_kill (trace_of out) = 1%nat) /\
  (In (Handled ShutdownTimeout) (trace_of out) <->
   count is_kill (trace_of out) = 1%nat) /\
  count is_surfaced (trace_of out) = 0%nat /\
  (forall x, shutdown (with_listen_timeout x d) p now grace early = out) /\
  (forall x q t e,
     e <> StopRequest -> (forall rss, e <> Memory rss) ->
     step (with_kill_timeout x d) q t e = step d q t e) /\
  (forall c t k,
     listen_deadline (fst (launch d c t k)) = Some (t + listen_timeout d)%N /\
     kill_deadline (fst (launch d c t k)) = None /\
     (forall t',
        current (fst (step d (fst (launch d c t k)) t' ListenDeadline))
        = Listening <-> (t + listen_timeout d <= t')%N)) /\
  (forall x c t k, launch (with_kill_timeout x d) c t k = launch d c t k) /\
  (forall q q' t a,
     step d q t KillDeadline = (q', a) -> a <> [] ->
     kill_deadline q' = None /\ forall t', step d q' t' KillDeadline = (q', [])) /\
  (forall q q' t a,
     step d q t ListenDeadline = (q', a) -> a <> [] ->
     listen_deadline q' = None /\ forall t', step d q' t' ListenDeadline = (q', [])).
Proof.
  intros Hst Hearly. cbv zeta.
  destruct (stop_request_arms d p now Hst)
    as (q & head & deadline & Hs & Hhead & Hq & Hk & Hd & Hup & Hdown).
  set (exit_at := option_map (N.add now) grace).
  assert (Hexit : forall e, exit_at = Some e -> (now <= e)%N).
  { unfold exit_at. destruct grace as [g|]; intros e [= <-]. lia. }
  assert (Hin_time : up (current p) = true ->
                     exited_in_time d grace = true <->
                     first_exit exit_at deadline <> None).
  { intros Hu. rewrite (Hup Hu). unfold exited_in_time, exit_at, first_exit.
    destruct grace as [g|]; cbn [option_map]; [|split; congruence].
    destruct (N.leb_spec g (kill_timeout d));
      destruct (N.leb_spec (now + g) (now + kill_timeout d));
      try lia; split; congruence. }
  assert (Hout : shutdown d p now grace early
                 = (let '(s, b, fin) :=
                      await d exit_at (early ++ [deadline]) q in
                    (s, (head ++ [SendTerm now]) ++ b, fin))).
  { unfold shutdown, wakeups. rewrite Hs, Hk. reflexivity. }
  assert (Hind : forall x,
            shutdown (with_listen_timeout x d) p now grace early
            = shutdown d p now grace early).
  { intros x. unfold shutdown.
    rewrite listen_timeout_only_at_launch by discriminate.
    rewrite Hs. unfold wakeups. rewrite Hk.
    rewrite (await_any_descriptor d q Hq). reflexivity. }
  assert (Hlisten : forall c t k,
     listen_deadline (fst (launch d c t k)) = Some (t + listen_timeout d)%N /\
     kill_deadline (fst (launch d c t k)) = None /\
     (forall t',
        current (fst (step d (fst (launch d c t k)) t' ListenDeadline))
        = Listening <-> (t + listen_timeout d <= t')%N)).
  { intros c t k. split; [reflexivity|]. split; [reflexivity|].
    intros t'. unfold launch, step. cbn [fst current listen_deadline due].
    destruct (N.leb_spec (t + listen_timeout d) t') as [Hle|Hgt]; cbn; split;
      intros Hx; try reflexivity; try lia; discriminate Hx. }
  rewrite Hs. cbn [fst].
  destruct (await_cases d q deadline Hq Hk exit_at _ early (proj2 Hd) Hearly)
    as [(e & He & Hb & Hc)|(t & Ht & Hn & Hc)];
    rewrite Hc in Hout; cbv beta iota in Hout; rewrite Hout in Hind |- *;
    unfold trace_of, exit_of, final_of; cbn [fst snd].
  - split.
    { exists deadline. split; [exact Hk|]. split; [exact Hd|].
      split; [exact Hup|]. split; [exact Hdown|]. split.
      - intros t Hin. exfalso.
        destruct Hhead as [-> | ->]; cbn in Hin;
          repeat (destruct Hin as [Hin|Hin]; [discriminate Hin|]); exact Hin.
      - intros _. split; [|symmetry; exact He].
        destruct Hhead as [-> | ->]; reflexivity. }
    split; [destruct Hhead as [-> | ->]; reflexivity|].
    split; [destruct Hhead as [-> | ->]; reflexivity|].
    split; [destruct Hhead as [-> | ->]; cbn; lia|].
    split; [reflexivity|].
    split; [exists e; split; [reflexivity | specialize (Hexit e He); lia]|].
    split.
    { intros Hu.
      assert (Hit : exited_in_time d grace = true).
      { apply (Hin_time Hu). rewrite (Hup Hu).
        unfold first_exit. rewrite He.
        destruct (N.leb_spec e (now + kill_timeout d)) as [Hle|Hgt];
        [discriminate | lia]. }
      rewrite Hit. split; [|symmetry; exact He].
      destruct Hhead as [-> | ->]; reflexivity. }
    split.
    { intros ->. discriminate He. }
    split.
    { destruct Hhead as [-> | ->]; cbn; split; intros H; try discriminate H;
        exfalso; repeat (destruct H as [H|H]; [discriminate H|]); exact H. }
    split; [destruct Hhead as [-> | ->]; reflexivity|].
    split; [exact Hind|].
    split; [intros; apply kill_timeout_only_when_stopping; assumption|].
    split; [exact Hlisten|].
    split; [reflexivity|].
    split; [apply kill_deadline_is_one_shot | apply listen_deadline_is_one_shot].
  - split.
    { exists deadline. split; [exact Hk|]. split; [exact Hd|].
      split; [exact Hup|]. split; [exact Hdown|]. split.
      - intros t' Hin.
        assert (t' = t) as ->.
        { destruct Hhead as [-> | ->]; cbn in Hin;
            repeat (destruct Hin as [Hin|Hin];
                    [first [discriminate Hin
                           | injection Hin as <-; reflexivity]|]);
            contradiction. }
        auto.
      - intros Hne. exfalso. apply Hne.
        apply (first_exit_later exit_at deadline t Hn). lia. }
    split; [destruct Hhead as [-> | ->]; reflexivity|].
    split; [destruct Hhead as [-> | ->]; reflexivity|].
    split; [destruct Hhead as [-> | ->]; cbn; lia|].
    split; [reflexivity|].
    split; [exists t; split; [reflexivity | lia]|].
    split.
    { intros Hu.
      assert (Hit : exited_in_time d grace = false).
      { pose proof (Hin_time Hu) as Hi.
        destruct (exited_in_time d grace); [|reflexivity].
        exfalso. apply (proj1 Hi eq_refl).
        apply (first_exit_later exit_at deadline t Hn). lia. }
      rewrite Hit. rewrite (Hup Hu) in Ht.
      assert (t = (now + kill_timeout d)%N) as -> by lia.
      split; [|reflexivity].
      destruct Hhead as [-> | ->]; reflexivity. }
    split; [intros _; destruct Hhead as [-> | ->]; reflexivity|].
    split.
    { destruct Hhead as [-> | ->]; cbn; split; intros _; auto. }
    split; [destruct Hhead as [-> | ->]; reflexivity|].
    split; [exact Hind|].
    split; [intros; apply kill_timeout_only_when_stopping; assumption|].
    split; [exact Hlisten|].
    split; [reflexivity|].
    split; [apply kill_deadline_is_one_shot | apply listen_deadline_is_one_shot].
Qed.

(** At this repository's descriptor: the child ignores the graceful signal
    sent at 1000 ms; the loop is woken at 2000 and 5999 ms, to no effect,
    and the child is killed at 6000 ms. *)
Lemma stop_request_ends_stopped_by_kill_timeout_witness :
  let p := mkProc 0 0 Running None None in
  let out := shutdown uml_mail_fastapi p 1000 None [2000; 5999]%N in
  stoppable uml_mail_fastapi 1000 p = true /\
  Forall (fun t => (t < 1000 + kill_timeout uml_mail_fastapi)%N) [2000; 5999]%N /\
  current (final_of out) = Stopped Normal /\
  List.filter is_kill (trace_of out) = [SendKill 6000%N] /\
  exit_of out = Some 6000%N /\
  count is_surfaced (trace_of out) = 0%nat.
Proof.
  cbv zeta.
  assert (He : Forall (fun t => (t < 1000 + kill_timeout uml_mail_fastapi)%N)
                 [2000; 5999]%N)
    by (repeat constructor).
  destruct (stop_request_ends_stopped_by_kill_timeout uml_mail_fastapi
              (mkProc 0 0 Running None None) 1000%N None [2000; 5999]%N
              eq_refl He)
    as (_ & _ & _ & _ & Hs & _ & Hu & _ & _ & Hf & _).
  destruct (Hu eq_refl) as [Hk Hx].
  exact (conj eq_refl (conj He (conj Hs (conj Hk (conj Hx Hf))))).
Defined.

(** A stop request that arrives during a memory-triggered stop: the
    graceful signal is sent again, the deadline armed by the memory stop
    stays in force, and the child, which ignores both signals, is killed
    at that deadline and not restarted. *)
Example stop_during_memory_restart :
  let running := mkProc 0 0 Running None None in
  let stopping :=
    fst (step uml_mail_fastapi running 1000 (Memory (600 * 1024 * 1024))) in
  let out := shutdown uml_mail_fastapi stopping 3000 None [4000]%N in
  current stopping = Stopping ByMemoryLimit /\
  stoppable uml_mail_fastapi 3000 stopping = true /\
  trace_of out
  = [Enter (Stopping ByRequest); SendTerm 3000; Handled ShutdownTimeout;
     SendKill 6000; Enter (Stopped Normal)] /\
  current (final_of out) = Stopped Normal /\
  exit_of out = Some 6000%N.
Proof. cbv zeta. repeat split; vm_compute; reflexivity. Qed.

End Lifecycle.

(* ===================================================================== *)
(** * Merged logging *)
(* ===================================================================== *)

Section MergedLogging.
Import Config LogMux.

Lemma merged_map {A B : Type} (f : A -> B) (l r m : list A) :
  merged l r m -> merged (map f l) (map f r) (map f m).
Proof. induction 1; cbn; constructor; assumption. Qed.

Lemma merged_perm {A : Type} (l r m : list A) :
  merged l r m -> Permutation m (l ++ r).
Proof.
  induction 1 as [|x l r m _ IH|x l r m _ IH]; cbn.
  - constructor.
  - constructor. exact IH.
  - apply Permutation_cons_app. exact IH.
Qed.

Lemma merged_length {A : Type} (l r m : list A) :
  merged l r m -> List.length m = (List.length l + List.length r)%nat.
Proof. induction 1; cbn; lia. Qed.

(** The arrivals interleave what each stream delivered. *)
Lemma merged_from (ls : list line) : merged (from Stdout ls) (from Stderr ls) ls.
Proof.
  induction ls as [|[[] t s] ls IH]; cbn; constructor; exact IH.
Qed.

(** Conversely, however the lines [os] of stdout and [es] of stderr
    interleave on arrival, each stream's part of the arrivals is what that
    stream delivered. *)
Lemma from_merged (os es : list (N * string)) (ls : list line) :
  merged (map (fun l => mkLine Stdout (fst l) (snd l)) os)
         (map (fun l => mkLine Stderr (fst l) (snd l)) es) ls ->
  from Stdout ls = map (fun l => mkLine Stdout (fst l) (snd l)) os /\
  from Stderr ls = map (fun l => mkLine Stderr (fst l) (snd l)) es.
Proof.
  revert os es. induction ls as [|l ls IH]; intros os es H.
  - destruct os, es; inversion H. split; reflexivity.
  - destruct os as [|o os], es as [|e es]; inversion H; subst;
      match goal with
      | Hm : merged _ _ ls |- _ => apply IH in Hm; destruct Hm as [Ho He]
      end;
      unfold from in *; cbn; rewrite Ho, He; split; reflexivity.
Qed.

Lemma content_append (fs : gmap string (list string)) (path ln : string) :
  content (append fs path ln) path = content fs path ++ [ln].
Proof. unfold append, content at 1. rewrite lookup_insert_eq. reflexivity. Qed.

Lemma lookup_append_ne (fs : gmap string (list string)) (path path' ln : string) :
  path <> path' -> append fs path ln !! path' = fs !! path'.
Proof. intros H. unfold append. apply lookup_insert_ne. exact H. Qed.

Variable stamp : string -> N -> string.

Lemma write_merged (d : AppDescriptor) (fs : gmap string (list string)) (l : line) :
  merge_logs d = true ->
  write stamp d fs l = append fs (log_file d) (entry stamp d l).
Proof. intros H. unfold write, sinks. rewrite H. reflexivity. Qed.

(** With [merge_logs] the multiplexer appends the entries of all arrivals
    to the combined file, in order, and touches no other file. *)
Lemma multiplex_merged (d : AppDescriptor) (ls : list line) :
  merge_logs d = true ->
  forall fs : gmap string (list string),
    content (multiplex stamp d fs ls) (log_file d)
    = content fs (log_file d) ++ map (entry stamp d) ls /\
    (forall path, path <> log_file d ->
                  multiplex stamp d fs ls !! path = fs !! path).
Proof.
  intros Hm. unfold multiplex.
  induction ls as [|l ls IH]; intros fs; cbn [fold_left map].
  - rewrite app_nil_r. auto.
  - destruct (IH (write stamp d fs l)) as [Hc Ho].
    rewrite write_merged in Hc, Ho |- * by exact Hm. split.
    + rewrite Hc, content_append, <- app_assoc. reflexivity.
    + intros path Hp. rewrite Ho by exact Hp.
      apply lookup_append_ne. congruence.
Qed.

End MergedLogging.

Section MergedLoggingClaim.
Import Config LogMux.

(** C5: with [merge_logs], whatever the two streams deliver and however
    their lines arrive, what the multiplexer adds to the combined file is
    one entry per arrival in arrival order: an interleaving of the entries
    of stdout and of stderr, each stream in its own order, hence a
    permutation of the two together, every entry as many times as the
    streams delivered it; nothing else is written. *)
Theorem merged_log_holds_both_streams
  (stamp : string -> N -> string) (d : AppDescriptor)
  (fs : gmap string (list string)) (ls : list line) :
  merge_logs d = true ->
  let outs := map (entry stamp d) (from Stdout ls) in
  let errs := map (entry stamp d) (from Stderr ls) in
  let after := multiplex stamp d fs ls in
  exists written : list string,
    content after (log_file d) = content fs (log_file d) ++ written /\
    written = map (entry stamp d) ls /\
    merged outs errs written /\
    Permutation written (outs ++ errs) /\
    (forall e, count_occ string_dec written e
               = (count_occ string_dec outs e + count_occ string_dec errs e)%nat) /\
    List.length written = (List.length outs + List.length errs)%nat /\
    (forall path, path <> log_file d -> after !! path = fs !! path).
Proof.
  intros Hm. cbv zeta.
  destruct (multiplex_merged stamp d ls Hm fs) as [Hc Ho].
  pose proof (merged_map (entry stamp d) _ _ _ (merged_from ls)) as Hi.
  exists (map (entry stamp d) ls).
  split; [exact Hc|]. split; [reflexivity|]. split; [exact Hi|].
  split; [apply merged_perm; exact Hi|].
  split.
  { intros e. rewrite <- count_occ_app.
    apply Permutation_count_occ, merged_perm, Hi. }
  split; [apply merged_length; exact Hi | exact Ho].
Qed.

(** At this repository's descriptor: three lines, stdout, stderr,
    stdout, into an empty [./logs/combined.log]. *)
Lemma merged_log_holds_both_streams_witness :
  let stamp := fun (fmt : string) (t : N) => "| " in
  let ls := [ mkLine Stdout 1 "listening"; mkLine Stderr 2 "warning";
              mkLine Stdout 3 "request" ] in
  merge_logs uml_mail_fastapi = true /\
  content (multiplex stamp uml_mail_fastapi ∅ ls) "./logs/combined.log"
  = ["| listening"; "| warning"; "| request"].
Proof.
  cbv zeta. split; [reflexivity|].
  destruct (merged_log_holds_both_streams (fun _ _ => "| ") uml_mail_fastapi ∅
              [ mkLine Stdout 1 "listening"; mkLine Stderr 2 "warning";
                mkLine Stdout 3 "request" ] eq_refl)
    as (w & Hc & Hw & _).
  change (log_file uml_mail_fastapi) with "./logs/combined.log" in Hc.
  rewrite Hc, Hw. reflexivity.
Defined.

End MergedLoggingClaim.

(* ===================================================================== *)
(** * More about the literal *)
(* ===================================================================== *)

Section Lookup.
Import Js Literal.

(** A key reads as undefined exactly when the object does not bind it. *)
Lemma assoc_last_None (k : string) (ps : list (string * value)) :
  assoc_last k ps = None <-> ~ In k (map fst ps).
Proof.
  induction ps as [|[k' v] ps IH]; cbn; [tauto|].
  destruct (assoc_last k ps) as [w|].
  - split; [discriminate|]. intros H. exfalso.
    assert (Hn : ~ In k (map fst ps)) by tauto.
    apply IH in Hn. discriminate Hn.
  - assert (Hn : ~ In k (map fst ps)) by (apply IH; reflexivity).
    destruct (String.eqb_spec k k') as [->|Hne]; split; try discriminate;
      try tauto.
    intros _ [H|H]; [congruence | tauto].
Qed.

(** What a key reads is one of the bindings written for it. *)
Lemma assoc_last_In (k : string) (v : value) (ps : list (string * value)) :
  assoc_last k ps = Some v -> In (k, v) ps.
Proof.
  induction ps as [|[k' v'] ps IH]; cbn; [discriminate|].
  destruct (assoc_last k ps) as [w|].
  - intros H. right. apply IH. exact H.
  - destruct (String.eqb_spec k k') as [->|_]; [|discriminate].
    intros [= ->]. left. reflexivity.
Qed.

(** Where no key is written twice, every binding written is what its key
    reads. *)
Lemma In_assoc_last (k : string) (v : value) (ps : list (string * value)) :
  List.NoDup (map fst ps) -> In (k, v) ps -> assoc_last k ps = Some v.
Proof.
  induction ps as [|[k' v'] ps IH]; cbn; [tauto|].
  intros Hnd [H|H]; inversion Hnd as [|? ? Hnotin Hnd']; subst.
  - injection H as -> ->.
    apply assoc_last_None in Hnotin. rewrite Hnotin, String.eqb_refl. reflexivity.
  - rewrite (IH Hnd' H). reflexivity.
Qed.

Lemma assoc_first_last (k : string) (ps : list (string * value)) :
  List.NoDup (map fst ps) -> assoc_first k ps = assoc_last k ps.
Proof.
  induction ps as [|[k' v] ps IH]; cbn; [reflexivity|].
  intros Hnd. inversion Hnd as [|? ? Hnotin Hnd']; subst.
  destruct (String.eqb_spec k k') as [->|Hne].
  - apply assoc_last_None in Hnotin. rewrite Hnotin. reflexivity.
  - rewrite (IH Hnd'). destruct (assoc_last k ps); reflexivity.
Qed.

Lemma assoc_last_perm (k : string) (ps ps' : list (string * value)) :
  List.NoDup (map fst ps) -> Permutation ps ps' ->
  assoc_last k ps' = assoc_last k ps.
Proof.
  intros Hnd Hp.
  assert (Hnd' : List.NoDup (map fst ps'))
    by (eapply Permutation_NoDup; [apply Permutation_map; exact Hp | exact Hnd]).
  destruct (assoc_last k ps) as [v|] eqn:E.
  - apply In_assoc_last; [exact Hnd'|].
    eapply Permutation_in; [exact Hp | apply assoc_last_In; exact E].
  - apply assoc_last_None. intros Hin. apply assoc_last_None in E. apply E.
    eapply Permutation_in; [apply Permutation_map, Permutation_sym, Hp | exact Hin].
Qed.

End Lookup.

Section Fuel.
Import Js Reader.

(** A value read with some fuel is read, the same, with one more. *)
Lemma parse_more_fuel (f : nat) :
  (forall ts r, parse_value f ts = Some r -> parse_value (S f) ts = Some r) /\
  (forall ts r, parse_items f ts = Some r -> parse_items (S f) ts = Some r) /\
  (forall ts r, parse_props f ts = Some r -> parse_props (S f) ts = Some r).
Proof.
  induction f as [|f (IHv & IHi & IHp)];
    [repeat split; intros ts r H; discriminate H|].
  repeat split; intros ts r H;
    cbn [parse_value parse_items parse_props] in H;
    remember (S f) as g eqn:Hg;
    cbn [parse_value parse_items parse_props];
    do 12 try (cbv beta iota in *;
      match goal with
      | H : context [if ?b then _ else _] |- _ => destruct b
      | H : context [match ?l with [] => _ | _ :: _ => _ end] |- _ =>
          is_var l; destruct l
      | H : context [match ?t with TIdent _ => _ | _ => _ end] |- _ =>
          is_var t; destruct t
      | H : context [parse_value f ?x] |- _ =>
          let E := fresh "E" in
          destruct (parse_value f x) as [[? ?]|] eqn:E;
          [apply IHv in E; rewrite E | discriminate H]
      | H : context [parse_items f ?x] |- _ =>
          let E := fresh "E" in
          destruct (parse_items f x) as [[? ?]|] eqn:E;
          [apply IHi in E; rewrite E | discriminate H]
      | H : context [parse_props f ?x] |- _ =>
          let E := fresh "E" in
          destruct (parse_props f x) as [[? ?]|] eqn:E;
          [apply IHp in E; rewrite E | discriminate H]
      end);
    try discriminate H; try exact H.
Qed.

(** The result of the reader is no artefact of the bound: more fuel reads
    the same value. *)
Lemma parse_value_extra_fuel (extra f : nat) (ts : list token)
  (r : value * list token) :
  parse_value f ts = Some r -> parse_value (extra + f) ts = Some r.
Proof.
  intros H. induction extra as [|extra IH]; [exact H|].
  apply (proj1 (parse_more_fuel (extra + f))). exact IH.
Qed.

End Fuel.

Section Reading.
Import Js Ecosystem Literal.

(** The objects of the literal: [module.exports], the entry of [apps] and
    its [env]; none writes a key twice. *)
Lemma objects_of_module_exports :
  objects module_exports
  = [ props module_exports; props app0;
      [ ("NODE_ENV", Str "production"); ("PORT", Num 3001) ] ] /\
  Forall (fun ps => List.NoDup (map fst ps)) (objects module_exports).
Proof.
  split; [reflexivity|].
  apply Forall_forall. intros ps Hin. apply NoDup_ListNoDup.
  revert ps Hin. apply Forall_forall.
  repeat constructor; apply (bool_decide_unpack _); vm_compute; reflexivity.
Qed.

(** X2: no object of the literal writes a key twice, so no binding is
    shadowed: for every object and every key, the first binding written
    and the one JavaScript keeps, the last, are the same. *)
Theorem no_key_is_bound_twice :
  Forall (fun ps => List.NoDup (map fst ps)) (objects module_exports) /\
  (forall ps k, In ps (objects module_exports) ->
                assoc_first k ps = assoc_last k ps).
Proof.
  destruct objects_of_module_exports as [_ Hnd].
  split; [exact Hnd|].
  intros ps k Hin. apply assoc_first_last.
  exact (proj1 (List.Forall_forall _ _) Hnd ps Hin).
Qed.

(** X3: the order of the fields is irrelevant: however the properties of
    an object of the literal are reordered, every key reads the same. *)
Theorem field_order_is_irrelevant
  (ps ps' : list (string * value)) (k : string) :
  In ps (objects module_exports) ->
  Permutation ps ps' ->
  prop k (Obj ps') = prop k (Obj ps).
Proof.
  intros Hin Hp. cbn [prop]. apply assoc_last_perm; [|exact Hp].
  destruct objects_of_module_exports as [_ Hnd].
  exact (proj1 (List.Forall_forall _ _) Hnd ps Hin).
Qed.

(** With PORT written before NODE_ENV, [env] reads the same. *)
Lemma field_order_is_irrelevant_witness :
  let env := [ ("NODE_ENV", Str "production"); ("PORT", Num 3001) ] in
  let env' := [ ("PORT", Num 3001); ("NODE_ENV", Str "production") ] in
  In env (objects module_exports) /\
  Permutation env env' /\
  prop "PORT" (Obj env') = prop "PORT" (Obj env).
Proof.
  cbv zeta.
  assert (Hin : In [ ("NODE_ENV", Str "production"); ("PORT", Num 3001) ]
                  (objects module_exports))
    by (right; right; left; reflexivity).
  assert (Hp : Permutation
                 [ ("NODE_ENV", Str "production"); ("PORT", Num 3001) ]
                 [ ("PORT", Num 3001); ("NODE_ENV", Str "production") ])
    by apply perm_swap.
  exact (conj Hin (conj Hp (field_order_is_irrelevant _ _ "PORT" Hin Hp))).
Defined.

(** The reader refuses a numeral with a leading zero, whatever follows
    the zero. *)
Lemma decimal_refuses_leading_zero (c : ascii) (rest : string) :
  Reader.decimal (String "0" (String c rest)) = None.
Proof. reflexivity. Qed.

(** What the reader takes for a number is an integer a JavaScript number
    holds exactly. *)
Lemma decimal_is_safe (digits : string) (n : N) :
  Reader.decimal digits = Some n -> (n < 2 ^ 53)%N.
Proof.
  unfold Reader.decimal. destruct digits as [|c rest]; [discriminate|].
  destruct (Ascii.eqb c "0" && negb (String.eqb rest "")); [discriminate|].
  destruct (Reader.digits_value 0 (String c rest)) as [m|]; [|discriminate].
  destruct (N.ltb_spec m (2 ^ 53)) as [Hlt|Hge]; [|discriminate].
  intros [= <-]. exact Hlt.
Qed.

Example legacy_octal_is_refused :
  Reader.exports "module.exports = { a: 010 };" = None /\
  Reader.exports "module.exports = { a: 10 };" = Some (Obj [("a", Num 10)]).
Proof. split; vm_compute; reflexivity. Qed.

(** X4: read as JavaScript, the text of the file is one assignment to
    [module.exports], of exactly the value embedded above, whatever fuel
    the reader is given beyond its own.  No backslash occurs in the text,
    so it has no escape sequence.  Its numeric literals are, as written,
    1, 3001, 10, 10000 and 5000: decimal, none with a leading zero, a
    fraction or an exponent, each an integer a JavaScript number holds
    exactly; a numeral with a leading zero would have been refused. *)
Theorem text_evaluates_to_module_exports :
  Reader.exports Source.ecosystem_config_js = Some module_exports /\
  (forall extra : nat,
     Reader.exports_with extra Source.ecosystem_config_js = Some module_exports) /\
  existsb (Ascii.eqb "\") (list_ascii_of_string Source.ecosystem_config_js)
  = false /\
  option_map (fun ts => map (fun s => (s, Reader.decimal s)) (Reader.numerals ts))
    (Reader.scan Reader.Idle Source.ecosystem_config_js)
  = Some [ ("1", Some 1%N); ("3001", Some 3001%N); ("10", Some 10%N);
           ("10000", Some 10000%N); ("5000", Some 5000%N) ] /\
  (forall c rest, Reader.decimal (String "0" (String c rest)) = None) /\
  Forall (fun kn => safe_integer (snd kn) = true) (numbers "" module_exports).
Proof.
  split; [vm_compute; reflexivity|]. split.
  - intros extra.
    assert (Hscan : exists ts,
              Reader.scan Reader.Idle Source.ecosystem_config_js
              = Some (Reader.TIdent "module" :: Reader.TPunct "."
                      :: Reader.TIdent "exports" :: Reader.TPunct "=" :: ts) /\
              Reader.parse_value (List.length ts) ts
              = Some (module_exports, [Reader.TPunct ";"]))
      by (eexists; split; [vm_compute; reflexivity | vm_compute; reflexivity]).
    destruct Hscan as (ts & Hs & Hp).
    unfold Reader.exports_with. rewrite Hs.
    rewrite (parse_value_extra_fuel extra _ _ _ Hp). reflexivity.
  - split; [vm_compute; reflexivity|].
    split; [vm_compute; reflexivity|].
    split; [reflexivity|].
    cbn [numbers flat_map app module_exports fst snd]. repeat constructor.
Qed.

End Reading.
